(** * Doc Stager: [tools/gen_docs.py]

    A shallow embedding of the documentation staging script and of the part
    of Python's [str] it relies on ([==], [in], [str.startswith],
    [str.replace]), followed by the properties of link rewriting and of the
    staging loop. *)

From Stdlib Require Import List Ascii String Bool Arith Lia Permutation.
Import ListNotations.

(** ** Text *)

(** A text is a finite sequence of characters.  Literals are written as
    [txt "..."]. *)
Definition text : Type := list ascii.

Definition txt (s : string) : text := list_ascii_of_string s.

(** ** The fragment of Python's [str] used by the script *)

Module PyStr.

(** [a == b] on strings. *)
Fixpoint eqb (a b : text) : bool :=
  match a, b with
  | [], [] => true
  | x :: a', y :: b' => Ascii.eqb x y && eqb a' b'
  | _, _ => false
  end.

(** [s.startswith(p)]. *)
Fixpoint startswith (p s : text) : bool :=
  match p, s with
  | [], _ => true
  | _ :: _, [] => false
  | x :: p', c :: s' => Ascii.eqb x c && startswith p' s'
  end.

(** [p in s]: [p] occurs in [s] at some position. *)
Fixpoint contains (p s : text) : bool :=
  startswith p s ||
  match s with
  | [] => false
  | _ :: t => contains p t
  end.

(** The scan behind [s.replace(old, new)] for a non-empty [old]: the text is
    read from left to right; where [old] starts, [new] is emitted and the
    [len(old)] characters of the occurrence are passed over ([skip] counts
    those still to pass); any other character is copied. *)
Fixpoint scan (old new : text) (skip : nat) (s : text) : text :=
  match s with
  | [] => []
  | c :: t =>
      match skip with
      | S k => scan old new k t
      | O =>
          if startswith old s
          then new ++ scan old new (pred (List.length old)) t
          else c :: scan old new 0 t
      end
  end.

(** [s.replace(old, new)].  With an empty [old], Python inserts [new] before
    every character and at the end. *)
Definition replace (old new s : text) : text :=
  match old with
  | [] => new ++ flat_map (fun c => c :: new) s
  | _ :: _ => scan old new 0 s
  end.

(** The non-empty proper prefixes of a text, shortest first. *)
Fixpoint proper_prefixes (p : text) : list text :=
  match p with
  | [] => []
  | x :: p' =>
      match p' with
      | [] => []
      | _ :: _ => [x] :: map (cons x) (proper_prefixes p')
      end
  end.

(** The non-empty suffixes of a text, longest first. *)
Fixpoint suffixes (s : text) : list text :=
  match s with
  | [] => []
  | _ :: t => s :: suffixes t
  end.

(** Two texts agree as far as the shorter one goes. *)
Definition compatible (a b : text) : bool :=
  startswith a b || startswith b a.

(** [self_preceded old s]: some occurrence of [old] in [s] comes right after
    a non-empty proper prefix of [old]. *)
Definition self_preceded (old s : text) : bool :=
  existsb (fun a => contains (a ++ old) s) (proper_prefixes old).

(** [inert p new]: no occurrence of [p] in a text [new ++ y] starts inside
    that [new]: no non-empty suffix of [new] agrees with [p].
    [isolates p new]: moreover [new] is not empty and no occurrence of [p] in
    a text [x ++ new ++ y] that starts in [x] reaches [new]: no non-empty
    proper suffix of [p] agrees with [new]. *)
Definition inert (p new : text) : bool :=
  forallb (fun n => negb (compatible n p)) (suffixes new).

Definition isolates (p new : text) : bool :=
  negb (eqb new []) && inert p new &&
  forallb (fun b => negb (compatible b new)) (tl (suffixes p)).

(** [strip p s]: the rest of [s] after its prefix [p], if [p] starts [s]. *)
Fixpoint strip (p s : text) : option text :=
  match p, s with
  | [], _ => Some s
  | _ :: _, [] => None
  | x :: p', c :: s' => if Ascii.eqb x c then strip p' s' else None
  end.

(** [glue_at old new t]: [t] starts with a non-empty proper prefix [a] of
    [old], then a full [old], then a text [y] such that [new] followed by
    the rewriting of [y] starts with the rest of [old] after [a]: replacing
    that [old] joins [a] to its missing end.  [glued old new s]: this
    happens somewhere in [s]. *)
Definition glue_at (old new t : text) : bool :=
  existsb (fun a =>
             match strip (a ++ old) t with
             | Some y =>
                 startswith (skipn (List.length a) old)
                            (new ++ replace old new y)
             | None => false
             end)
          (proper_prefixes old).

Fixpoint glued (old new s : text) : bool :=
  glue_at old new s ||
  match s with
  | [] => false
  | _ :: t => glued old new t
  end.

(** What [replace old new] does, as a relation between the text and the
    result: occurrences are taken from left to right without overlap. *)
Inductive Replaced (old new : text) : text -> text -> Prop :=
| Replaced_nil : Replaced old new [] []
| Replaced_hit rest r :
    Replaced old new rest r -> Replaced old new (old ++ rest) (new ++ r)
| Replaced_miss c t r :
    startswith old (c :: t) = false ->
    Replaced old new t r -> Replaced old new (c :: t) (c :: r).

End PyStr.

(** ** The script *)

Module GenDocs.

(** A [pathlib.Path], as the sequence of its components below the file
    system root; [p / "a/b"] appends the components [a] and [b]. *)
Definition path : Type := list text.

Definition joinpath (p : path) (rel : list text) : path := p ++ rel.

(** The constants of the rewrite rules. *)
Definition index_md : text := txt "index.md".
Definition agents_md : text := txt "AGENTS.md".
Definition docs_prefix : text := txt "./docs/".
Definition templates_prefix : text := txt "./_templates/".
Definition templates_site : text := txt "_templates/".
Definition license_ref : text := txt "./LICENSE".
Definition license_url : text :=
  txt "https://github.com/artificial-intelligence-first/ssot/blob/main/LICENSE".

(** [SOURCES]: destination name to source path, in declaration order (a
    Python [dict] iterates in insertion order).  [ROOT] is the directory two
    levels above the script. *)
Definition SOURCES (ROOT : path) : list (text * path) :=
  [ (index_md, joinpath ROOT [txt "README.md"]);
    (agents_md, joinpath ROOT [txt "AGENTS.md"]);
    (txt "_templates/TOPIC_TEMPLATE.md",
      joinpath ROOT [txt "_templates"; txt "TOPIC_TEMPLATE.md"]);
    (txt "_templates/SECTION_TEMPLATE.md",
      joinpath ROOT [txt "_templates"; txt "SECTION_TEMPLATE.md"]);
    (txt "_templates/FRONT_MATTER.md",
      joinpath ROOT [txt "_templates"; txt "FRONT_MATTER.md"]) ].

(** [rewrite_links(name, content)]: two successive [if] statements, each
    rebinding [content]. *)
Definition rewrite_links (name content : text) : text :=
  let content :=
    if PyStr.eqb name index_md then
      let content := PyStr.replace docs_prefix (txt "") content in
      let content := PyStr.replace templates_prefix templates_site content in
      PyStr.replace license_ref license_url content
    else content in
  let content :=
    if PyStr.eqb name agents_md then PyStr.replace docs_prefix (txt "") content
    else content in
  content.

(** *** The staging loop *)

(** The environment of a run: the files, as the characters their bytes
    decode to ([None] when the file is missing or is not valid UTF-8), and
    the host's write interface, whose [open], [write] and closing of the
    file may each raise. *)
Record host : Type := Host {
  source_text : path -> option text;
  open_ok : text -> bool;
  write_ok : text -> text -> bool;
  close_ok : text -> text -> bool
}.

Definition CR : ascii := "013"%char.
Definition LF : ascii := "010"%char.

(** Text-mode reading with the default [newline=None]: a carriage return
    followed by a line feed, and a carriage return alone, are read as one
    line feed. *)
Fixpoint universal_newlines (s : text) : text :=
  match s with
  | [] => []
  | c :: t =>
      if Ascii.eqb c CR then
        LF :: match t with
              | [] => []
              | l :: t' =>
                  if Ascii.eqb l LF then universal_newlines t'
                  else universal_newlines t
              end
      else c :: universal_newlines t
  end.

(** [source.read_text(encoding="utf-8")]; [None] when it raises. *)
Definition read_text (h : host) (source : path) : option text :=
  option_map universal_newlines (source_text h source).

(** What a run does to the host's virtual file tree, in order. *)
Inductive event : Type :=
| Opened (target : text)
| Wrote (target content : text)
| Closed (target : text).

Definition trace : Type := list event.

(** The exception that leaves an iteration.  One raised while closing
    replaces the exception of the block, if there is one, and keeps it as
    its context: [write_raised] tells whether [dest.write] had raised. *)
Inductive error : Type :=
| ReadError (source : path)
| OpenError (target : text)
| WriteError (target : text)
| CloseError (target : text) (write_raised : bool).

Inductive outcome : Type :=
| Done
| Raised (e : error).

(** The body of the loop for one entry.  No exception is caught; the [with]
    statement closes the file on both exits of its block, whether
    [dest.write] returned or raised, and closing may raise in turn. *)
Definition stage_entry (h : host) (entry : text * path) (tr : trace)
  : outcome * trace :=
  let '(target, source) := entry in
  match read_text h source with
  | None => (Raised (ReadError source), tr)
  | Some content =>
      let content := rewrite_links target content in
      if open_ok h target then
        if write_ok h target content then
          if close_ok h target content
          then (Done,
                tr ++ [Opened target; Wrote target content; Closed target])
          else (Raised (CloseError target false),
                tr ++ [Opened target; Wrote target content; Closed target])
        else
          if close_ok h target content
          then (Raised (WriteError target),
                tr ++ [Opened target; Closed target])
          else (Raised (CloseError target true),
                tr ++ [Opened target; Closed target])
      else (Raised (OpenError target), tr)
  end.

(** [for target, source in SOURCES.items(): ...]: an exception raised by an
    iteration ends the loop. *)
Fixpoint stage (h : host) (entries : list (text * path)) (tr : trace)
  : outcome * trace :=
  match entries with
  | [] => (Done, tr)
  | entry :: rest =>
      match stage_entry h entry tr with
      | (Done, tr') => stage h rest tr'
      | (Raised e, tr') => (Raised e, tr')
      end
  end.

(** One run of the script, from an empty trace. *)
Definition run (ROOT : path) (h : host) : outcome * trace :=
  stage h (SOURCES ROOT) [].

(** An entry whose iteration completes on host [h]. *)
Definition entry_ok (h : host) (entry : text * path) : bool :=
  match read_text h (snd entry) with
  | Some content =>
      open_ok h (fst entry) &&
      write_ok h (fst entry) (rewrite_links (fst entry) content) &&
      close_ok h (fst entry) (rewrite_links (fst entry) content)
  | None => false
  end.

(** The destinations written, in order, and the text written under each. *)
Fixpoint writes (tr : trace) : list (text * text) :=
  match tr with
  | [] => []
  | Wrote target content :: tr' => (target, content) :: writes tr'
  | _ :: tr' => writes tr'
  end.

Definition written (tr : trace) : list text := map fst (writes tr).

(** *** The rules as the specification lists them *)

(** A rewrite rule: a literal search substring and its replacement. *)
Definition rule : Type := (text * text)%type.

(** The rule set of the specification, keyed by destination name, each an
    ordered list of rules. *)
Definition index_rules : list rule :=
  [ (docs_prefix, txt "");
    (templates_prefix, templates_site);
    (license_ref, license_url) ].

Definition agents_rules : list rule := [ (docs_prefix, txt "") ].

Definition rules_of (name : text) : list rule :=
  if PyStr.eqb name index_md then index_rules
  else if PyStr.eqb name agents_md then agents_rules
  else [].

(** Rules applied in sequence to the full text, in the order declared. *)
Definition apply_rules (rules : list rule) (content : text) : text :=
  fold_left (fun acc r => PyStr.replace (fst r) (snd r) acc) rules content.

(** The search substrings of a destination. *)
Definition search_substrings (name : text) : list text :=
  map fst (rules_of name).

(** No search substring of the destination occurs in the text. *)
Definition no_match (name content : text) : bool :=
  forallb (fun old => negb (PyStr.contains old content))
          (search_substrings name).

(** *** Sample environments *)

(** A repository checked out at [/repo] in which every source reads as the
    same short page, and a host that accepts every write. *)
Definition sample_root : path := [txt "repo"].

Definition sample_page : text :=
  txt "[guide](./docs/guide.md) [topic](./_templates/TOPIC_TEMPLATE.md) [license](./LICENSE)".

Definition sample_host : host :=
  Host (fun _ => Some sample_page) (fun _ => true) (fun _ _ => true)
       (fun _ _ => true).

(** The same repository with [AGENTS.md] missing. *)
Definition path_eqb (p q : path) : bool :=
  if list_eq_dec (list_eq_dec ascii_dec) p q then true else false.

Definition broken_host : host :=
  Host (fun p =>
          if path_eqb p (joinpath sample_root [txt "AGENTS.md"])
          then None else Some sample_page)
       (fun _ => true) (fun _ _ => true) (fun _ _ => true).

(** A host that refuses the write under ["AGENTS.md"], and one whose [open]
    fails for every path below ["_templates/"]. *)
Definition write_refusing_host : host :=
  Host (fun _ => Some sample_page) (fun _ => true)
       (fun target _ => negb (PyStr.eqb target agents_md))
       (fun _ _ => true).

Definition open_refusing_host : host :=
  Host (fun _ => Some sample_page)
       (fun target => negb (PyStr.startswith templates_site target))
       (fun _ _ => true) (fun _ _ => true).

(** A host on which closing ["AGENTS.md"] fails, and one that moreover
    refuses the write under it. *)
Definition close_refusing_host : host :=
  Host (fun _ => Some sample_page) (fun _ => true) (fun _ _ => true)
       (fun target _ => negb (PyStr.eqb target agents_md)).

Definition write_and_close_refusing_host : host :=
  Host (fun _ => Some sample_page) (fun _ => true)
       (fun target _ => negb (PyStr.eqb target agents_md))
       (fun target _ => negb (PyStr.eqb target agents_md)).

(** A repository whose files end their lines with a carriage return and a
    line feed. *)
Definition crlf_page : text := [ "a"%char; CR; LF; "b"%char; CR; LF ].

Definition crlf_host : host :=
  Host (fun _ => Some crlf_page) (fun _ => true) (fun _ _ => true)
       (fun _ _ => true).

(** A host that knows the five declared sources of [/repo] and nothing
    else, and accepts the five declared destinations only. *)
Definition declared_only_host : host :=
  Host (fun p =>
          if existsb (path_eqb p) (map snd (SOURCES sample_root))
          then Some sample_page else None)
       (fun target => existsb (PyStr.eqb target) (map fst (SOURCES sample_root)))
       (fun _ _ => true) (fun _ _ => true).

(** The events of one completed iteration. *)
Definition block (w : text * text) : trace :=
  [Opened (fst w); Wrote (fst w) (snd w); Closed (fst w)].

End GenDocs.

(** ** Properties of the string operations *)

Module PyStrFacts.
Import PyStr.

Lemma eqb_eq (a b : text) : eqb a b = true <-> a = b.
Proof.
  revert b; induction a as [|x a IH]; intros [|y b]; simpl;
    try (split; [discriminate | congruence]); try tauto.
  rewrite andb_true_iff, Ascii.eqb_eq, IH.
  split; [intros [-> ->]; reflexivity | intros H; injection H; auto].
Qed.

Lemma eqb_neq (a b : text) : eqb a b = false <-> a <> b.
Proof.
  rewrite <- eqb_eq. destruct (eqb a b); split; congruence.
Qed.

Lemma startswith_iff (p s : text) :
  startswith p s = true <-> exists rest, s = p ++ rest.
Proof.
  revert s; induction p as [|x p IH]; intros s; simpl.
  - split; [exists s; reflexivity | reflexivity].
  - destruct s as [|c s].
    + split; [discriminate | intros [r Hr]; discriminate].
    + rewrite andb_true_iff, Ascii.eqb_eq, IH. split.
      * intros [-> [r ->]]. exists r; reflexivity.
      * intros [r Hr]. injection Hr as -> ->. split; [reflexivity | eauto].
Qed.

Lemma startswith_app (p rest : text) : startswith p (p ++ rest) = true.
Proof. apply startswith_iff. eauto. Qed.

Lemma contains_iff (p s : text) :
  contains p s = true <-> exists a b, s = a ++ p ++ b.
Proof.
  induction s as [|c s IH]; simpl.
  - rewrite orb_false_r, startswith_iff. split.
    + intros [r Hr]. exists [], r. exact Hr.
    + intros [a [b H]]. destruct a; [eauto | discriminate].
  - rewrite orb_true_iff, startswith_iff, IH. split.
    + intros [[r Hr] | [a [b H]]].
      * exists [], r. exact Hr.
      * exists (c :: a), b. simpl. congruence.
    + intros [[|x a] [b H]].
      * left. eauto.
      * right. injection H as -> ->. eauto.
Qed.


Lemma contains_startswith (p s : text) :
  startswith p s = true -> contains p s = true.
Proof. intros H. destruct s; simpl in *; rewrite H; reflexivity. Qed.

Lemma contains_cons (p : text) (c : ascii) (s : text) :
  contains p s = true -> contains p (c :: s) = true.
Proof. intros H. simpl. rewrite H. apply orb_true_r. Qed.

Lemma contains_app_l (p a s : text) :
  contains p s = true -> contains p (a ++ s) = true.
Proof.
  intros H. induction a as [|c a IH]; [exact H |].
  apply contains_cons. exact IH.
Qed.

Lemma contains_cons_inv (p : text) (c : ascii) (s : text) :
  contains p (c :: s) = true ->
  startswith p (c :: s) = true \/ contains p s = true.
Proof. simpl. intros H. apply orb_true_iff in H. exact H. Qed.

Lemma startswith_nil_r (p : text) : p <> [] -> startswith p [] = false.
Proof. destruct p; [congruence | reflexivity]. Qed.

Lemma contains_nil_r (p : text) : p <> [] -> contains p [] = false.
Proof. intros H. simpl. rewrite startswith_nil_r by exact H. reflexivity. Qed.

(** A prefix of [u ++ x] either lies within [u] or reaches into [x]. *)
Lemma startswith_app_inv (p u x : text) :
  startswith p (u ++ x) = true ->
  startswith p u = true \/
  exists l, l <> [] /\ p = u ++ l /\ startswith l x = true.
Proof.
  intros H. apply startswith_iff in H. destruct H as [r Hr].
  apply app_eq_app in Hr. destruct Hr as [l [[Hu Hx] | [Hp Hx]]].
  - left. apply startswith_iff. eauto.
  - destruct l as [|y l].
    + left. rewrite app_nil_r in Hp. subst p. apply startswith_iff.
      exists []. now rewrite app_nil_r.
    + right. exists (y :: l). split; [discriminate |].
      split; [exact Hp |]. apply startswith_iff. eauto.
Qed.

Lemma startswith_app_compatible (p n x : text) :
  startswith p (n ++ x) = true -> compatible n p = true.
Proof.
  intros H. unfold compatible. apply orb_true_iff.
  destruct (startswith_app_inv _ _ _ H) as [Hn | [l [_ [Hp _]]]]; [now right |].
  left. apply startswith_iff. eauto.
Qed.

Lemma startswith_compatible_app (l n x : text) :
  startswith l (n ++ x) = true -> compatible l n = true.
Proof.
  intros H. unfold compatible. apply orb_true_iff.
  destruct (startswith_app_inv _ _ _ H) as [Hn | [k [_ [Hp _]]]]; [now left |].
  right. apply startswith_iff. eauto.
Qed.

(** *** Suffixes and proper prefixes *)

Lemma suffixes_In (n1 n2 : text) :
  n2 <> [] -> In n2 (suffixes (n1 ++ n2)).
Proof.
  intros Hn. induction n1 as [|x n1 IH]; simpl.
  - destruct n2; [congruence | left; reflexivity].
  - right. exact IH.
Qed.

Lemma proper_prefixes_In (a b : text) :
  a <> [] -> b <> [] -> In a (proper_prefixes (a ++ b)).
Proof.
  revert b. induction a as [|x a IH]; intros b Ha Hb; [congruence |].
  simpl. destruct a as [|y a].
  - simpl. destruct b; [congruence | left; reflexivity].
  - right. apply in_map. apply IH; [discriminate | exact Hb].
Qed.

(** An occurrence in [n ++ x] starts inside [n] or lies in [x]. *)
Lemma contains_app_inv (p n x : text) :
  contains p (n ++ x) = true ->
  (exists n2, In n2 (suffixes n) /\ startswith p (n2 ++ x) = true) \/
  contains p x = true.
Proof.
  induction n as [|c n IH]; simpl app; intros H; [now right |].
  apply contains_cons_inv in H. destruct H as [H | H].
  - left. exists (c :: n). split; [left; reflexivity | exact H].
  - destruct (IH H) as [[n2 [Hin Hs]] | Hx]; [| now right].
    left. exists n2. split; [right; exact Hin | exact Hs].
Qed.

Lemma inert_spec (p new n2 x : text) :
  inert p new = true -> In n2 (suffixes new) ->
  startswith p (n2 ++ x) = false.
Proof.
  intros Hi Hin. unfold inert in Hi. rewrite forallb_forall in Hi.
  specialize (Hi _ Hin). apply negb_true_iff in Hi.
  destruct (startswith p (n2 ++ x)) eqn:E; [| reflexivity].
  apply startswith_app_compatible in E. congruence.
Qed.

Lemma inert_contains (p new x : text) :
  inert p new = true ->
  contains p (new ++ x) = true -> contains p x = true.
Proof.
  intros Hi H. destruct (contains_app_inv _ _ _ H) as [[n2 [Hin Hs]] | Hx].
  - rewrite (inert_spec _ _ _ x Hi Hin) in Hs. discriminate.
  - exact Hx.
Qed.

(** *** The equations of [replace] *)

Lemma scan_skip (old new p rest : text) :
  scan old new (List.length p) (p ++ rest) = scan old new 0 rest.
Proof. induction p as [|x p IH]; simpl; auto. Qed.

Lemma replace_nil (old new : text) : old <> [] -> replace old new [] = [].
Proof. destruct old; [congruence | reflexivity]. Qed.

Lemma replace_hit (old new rest : text) :
  old <> [] ->
  replace old new (old ++ rest) = new ++ replace old new rest.
Proof.
  destruct old as [|x old]; [congruence | intros _].
  unfold replace. change ((x :: old) ++ rest) with (x :: (old ++ rest)).
  cbn [scan]. change (x :: (old ++ rest)) with ((x :: old) ++ rest).
  rewrite startswith_app. cbn [List.length pred].
  now rewrite scan_skip.
Qed.

Lemma replace_miss (old new : text) (c : ascii) (t : text) :
  old <> [] -> startswith old (c :: t) = false ->
  replace old new (c :: t) = c :: replace old new t.
Proof.
  destruct old as [|x old]; [congruence | intros _ H].
  unfold replace. cbn [scan]. now rewrite H.
Qed.

(** Induction along the scan: the text is empty, starts with an occurrence
    of [old], or starts with a character that is copied. *)
Lemma scan_ind (old : text) (Hold : old <> []) (P : text -> Prop) :
  P [] ->
  (forall rest, P rest -> P (old ++ rest)) ->
  (forall c t, startswith old (c :: t) = false -> P t -> P (c :: t)) ->
  forall s, P s.
Proof.
  intros Hnil Hhit Hmiss s.
  remember (List.length s) as n eqn:Hn. revert s Hn.
  induction n as [n IH] using lt_wf_ind. intros [|c t] Hn; [exact Hnil |].
  destruct (startswith old (c :: t)) eqn:E.
  - apply startswith_iff in E. destruct E as [rest Hr]. rewrite Hr.
    apply Hhit. apply (IH (List.length rest)); [| reflexivity].
    subst n. rewrite Hr, length_app.
    destruct old; [congruence | simpl; lia].
  - apply Hmiss; [exact E |]. apply (IH (List.length t)); [| reflexivity].
    subst n. simpl. lia.
Qed.

(** *** [replace] against its relational description *)

Lemma replace_Replaced (old new s : text) :
  old <> [] -> Replaced old new s (replace old new s).
Proof.
  intros Hold. induction s as [| rest IH | c t E IH] using (scan_ind old Hold).
  - rewrite replace_nil by exact Hold. constructor.
  - rewrite replace_hit by exact Hold. now constructor.
  - rewrite replace_miss by assumption. now constructor.
Qed.

Lemma Replaced_replace (old new s r : text) :
  old <> [] -> Replaced old new s r -> r = replace old new s.
Proof.
  intros Hold H. induction H as [| rest r _ IH | c t r E _ IH].
  - now rewrite replace_nil.
  - rewrite replace_hit by exact Hold. now rewrite IH.
  - rewrite replace_miss by assumption. now rewrite IH.
Qed.

(** *** Texts without an occurrence *)

Lemma replace_absent (old new s : text) :
  contains old s = false -> replace old new s = s.
Proof.
  destruct old as [|x old].
  - destruct s; discriminate.
  - induction s as [|c t IH]; [reflexivity |].
    intros H. simpl in H. apply orb_false_iff in H. destruct H as [E H].
    rewrite replace_miss by (discriminate || exact E).
    now rewrite IH.
Qed.

(** *** What a replacement can leave behind *)

Lemma self_preceded_intro (old a b s : text) :
  old = a ++ b -> a <> [] -> b <> [] ->
  contains (a ++ old) s = true -> self_preceded old s = true.
Proof.
  intros Ho Ha Hb H. unfold self_preceded. apply existsb_exists.
  exists a. split; [| exact H]. rewrite Ho. now apply proper_prefixes_In.
Qed.

Lemma self_preceded_app_l (old a s : text) :
  self_preceded old s = true -> self_preceded old (a ++ s) = true.
Proof.
  unfold self_preceded. rewrite !existsb_exists.
  intros [x [Hin H]]. exists x. split; [exact Hin |].
  now apply contains_app_l.
Qed.

(** If [old] starts [u ++ replace old new t], where [u] is some text put in
    front, then it starts [u ++ t] as well, unless an occurrence of [old] in
    [u ++ t] comes right after a proper prefix of [old]. *)
Lemma startswith_through_replace (old new : text) :
  old <> [] ->
  forall t u,
    startswith old (u ++ replace old new t) = true ->
    startswith old (u ++ t) = true \/ self_preceded old (u ++ t) = true.
Proof.
  intros Hold t.
  induction t as [| rest IH | c t E IH] using (scan_ind old Hold);
    intros u H.
  - rewrite replace_nil in H by exact Hold. now left.
  - rewrite replace_hit in H by exact Hold.
    destruct (startswith_app_inv _ _ _ H) as [Hu | [l [Hl [Hp _]]]].
    + left. apply startswith_iff in Hu. destruct Hu as [r ->].
      rewrite <- app_assoc. apply startswith_app.
    + destruct u as [|y u].
      * left. simpl app. apply startswith_app.
      * right. apply (self_preceded_intro old (y :: u) l); auto; try discriminate.
        apply contains_startswith. rewrite app_assoc. apply startswith_app.
  - rewrite replace_miss in H by assumption.
    change (u ++ c :: replace old new t)
      with (u ++ [c] ++ replace old new t) in H.
    rewrite app_assoc in H. apply IH in H.
    rewrite <- app_assoc in H. exact H.
Qed.

(** An occurrence of [old] in the result of [replace old new] comes from an
    occurrence in the input that follows a proper prefix of [old], provided
    [new] itself cannot start one. *)
Lemma replace_residual (old new s : text) :
  old <> [] -> inert old new = true ->
  contains old (replace old new s) = true -> self_preceded old s = true.
Proof.
  intros Hold Hi.
  induction s as [| rest IH | c t E IH] using (scan_ind old Hold);
    intros H.
  - rewrite replace_nil, contains_nil_r in H by exact Hold. discriminate.
  - rewrite replace_hit in H by exact Hold.
    apply inert_contains in H; [| exact Hi].
    apply self_preceded_app_l. now apply IH.
  - rewrite replace_miss in H by assumption.
    apply contains_cons_inv in H. destruct H as [H | H].
    + apply (startswith_through_replace old new Hold t [c]) in H.
      simpl in H. destruct H as [H | H]; [congruence | exact H].
    + apply (self_preceded_app_l old [c] t). now apply IH.
Qed.

(** *** Replacements that cannot take part in an occurrence *)

Lemma isolates_inert (p new : text) :
  isolates p new = true -> inert p new = true.
Proof.
  unfold isolates. rewrite !andb_true_iff. tauto.
Qed.

Lemma isolates_nonempty (p new : text) :
  isolates p new = true -> new <> [].
Proof.
  unfold isolates. rewrite !andb_true_iff. intros [[H _] _] ->.
  discriminate.
Qed.

Lemma isolates_suffix (p new a b x : text) :
  isolates p new = true -> p = a ++ b -> a <> [] -> b <> [] ->
  startswith b (new ++ x) = false.
Proof.
  intros Hi Hp Ha Hb. unfold isolates in Hi. rewrite !andb_true_iff in Hi.
  destruct Hi as [_ Hi]. rewrite forallb_forall in Hi.
  assert (Hin : In b (tl (suffixes p))).
  { subst p. destruct a as [|y a]; [congruence |]. simpl.
    now apply suffixes_In. }
  specialize (Hi _ Hin). apply negb_true_iff in Hi.
  destruct (startswith b (new ++ x)) eqn:E; [| reflexivity].
  apply startswith_compatible_app in E. congruence.
Qed.

Lemma startswith_isolated (p old new : text) :
  isolates p new = true -> old <> [] ->
  forall t u,
    startswith p (u ++ replace old new t) = true ->
    startswith p (u ++ t) = true.
Proof.
  intros Hi Hold t.
  induction t as [| rest IH | c t E IH] using (scan_ind old Hold);
    intros u H.
  - now rewrite replace_nil in H by exact Hold.
  - rewrite replace_hit in H by exact Hold.
    destruct (startswith_app_inv _ _ _ H) as [Hu | [l [Hl [Hp Hs]]]].
    + apply startswith_iff in Hu. destruct Hu as [r ->].
      rewrite <- app_assoc. apply startswith_app.
    + destruct u as [|y u].
      * simpl in Hp. subst l.
        pose proof (isolates_nonempty _ _ Hi) as Hne.
        destruct new as [|z new]; [congruence |].
        rewrite (inert_spec p (z :: new) (z :: new) (replace old (z :: new) rest))
          in Hs; [discriminate | now apply isolates_inert | now left].
      * rewrite (isolates_suffix p new (y :: u) l _ Hi Hp) in Hs;
          [discriminate | discriminate | exact Hl].
  - rewrite replace_miss in H by assumption.
    change (u ++ c :: replace old new t)
      with (u ++ [c] ++ replace old new t) in H.
    rewrite app_assoc in H. apply IH in H.
    rewrite <- app_assoc in H. exact H.
Qed.

(** A replacement that [p] cannot touch introduces no occurrence of [p]. *)
Lemma replace_introduces_none (p old new s : text) :
  isolates p new = true -> old <> [] ->
  contains p (replace old new s) = true -> contains p s = true.
Proof.
  intros Hi Hold.
  induction s as [| rest IH | c t E IH] using (scan_ind old Hold);
    intros H.
  - now rewrite replace_nil in H by exact Hold.
  - rewrite replace_hit in H by exact Hold.
    apply inert_contains in H; [| now apply isolates_inert].
    apply contains_app_l. now apply IH.
  - rewrite replace_miss in H by assumption.
    apply contains_cons_inv in H. destruct H as [H | H].
    + apply (startswith_isolated p old new Hi Hold t [c]) in H.
      now apply contains_startswith.
    + apply contains_cons. now apply IH.
Qed.

(** When [old] cannot touch [new], nothing of [old] is left. *)
Lemma replace_clean (old new s : text) :
  isolates old new = true -> old <> [] ->
  contains old (replace old new s) = false.
Proof.
  intros Hi Hold.
  induction s as [| rest IH | c t E IH] using (scan_ind old Hold).
  - rewrite replace_nil by exact Hold. now apply contains_nil_r.
  - rewrite replace_hit by exact Hold.
    destruct (contains old (new ++ replace old new rest)) eqn:H; [| reflexivity].
    apply inert_contains in H; [congruence | now apply isolates_inert].
  - rewrite replace_miss by assumption.
    destruct (contains old (c :: replace old new t)) eqn:H; [| reflexivity].
    apply contains_cons_inv in H. destruct H as [H | H]; [| congruence].
    apply (startswith_isolated old old new Hi Hold t [c]) in H.
    simpl app in H. congruence.
Qed.

(** *** Occurrences joined by a replacement *)

Lemma strip_app (p y : text) : strip p (p ++ y) = Some y.
Proof.
  induction p as [|x p IH]; [reflexivity |].
  simpl. now rewrite Ascii.eqb_refl.
Qed.

Lemma strip_Some (p s y : text) : strip p s = Some y -> s = p ++ y.
Proof.
  revert s. induction p as [|x p IH]; intros s H.
  - simpl in H. injection H as ->. reflexivity.
  - destruct s as [|c s]; [discriminate |]. simpl in H.
    destruct (Ascii.eqb x c) eqn:E; [| discriminate].
    apply Ascii.eqb_eq in E. subst c. simpl. f_equal. now apply IH.
Qed.

Lemma skipn_length_app (a b : text) : skipn (List.length a) (a ++ b) = b.
Proof. induction a as [|x a IH]; [reflexivity | exact IH]. Qed.

Lemma glue_at_intro (old new a b y : text) :
  old = a ++ b -> a <> [] -> b <> [] ->
  startswith b (new ++ replace old new y) = true ->
  glue_at old new (a ++ old ++ y) = true.
Proof.
  intros Ho Ha Hb H. unfold glue_at. apply existsb_exists. exists a. split.
  - rewrite Ho. now apply proper_prefixes_In.
  - rewrite app_assoc, strip_app. rewrite Ho at 1.
    now rewrite skipn_length_app.
Qed.

Lemma glued_here (old new s : text) :
  glue_at old new s = true -> glued old new s = true.
Proof. intros H. destruct s; simpl; rewrite H; reflexivity. Qed.

Lemma glued_cons (old new : text) (c : ascii) (s : text) :
  glued old new s = true -> glued old new (c :: s) = true.
Proof. intros H. simpl. rewrite H. apply orb_true_r. Qed.

Lemma glued_app_l (old new a s : text) :
  glued old new s = true -> glued old new (a ++ s) = true.
Proof.
  intros H. induction a as [|c a IH]; [exact H |].
  apply glued_cons. exact IH.
Qed.

Lemma glued_inv (old new s : text) :
  glued old new s = true ->
  exists x a y,
    s = x ++ a ++ old ++ y /\ In a (proper_prefixes old) /\
    startswith (skipn (List.length a) old) (new ++ replace old new y) = true.
Proof.
  assert (Hat : forall t, glue_at old new t = true ->
            exists a y, t = a ++ old ++ y /\ In a (proper_prefixes old) /\
              startswith (skipn (List.length a) old)
                         (new ++ replace old new y) = true).
  { intros t H. unfold glue_at in H. apply existsb_exists in H.
    destruct H as [a [Hin H]].
    destruct (strip (a ++ old) t) as [y|] eqn:E; [| discriminate].
    apply strip_Some in E. exists a, y. rewrite <- app_assoc in E. auto. }
  induction s as [|c s IH]; intros H.
  - simpl in H. rewrite orb_false_r in H.
    destruct (Hat _ H) as [a [y [E [Hin Hs]]]]. exists [], a, y. auto.
  - simpl in H. apply orb_true_iff in H. destruct H as [H | H].
    + destruct (Hat _ H) as [a [y [E [Hin Hs]]]]. exists [], a, y. auto.
    + destruct (IH H) as [x [a [y [E [Hin Hs]]]]].
      exists (c :: x), a, y. rewrite E. auto.
Qed.

(** The sharper form of [startswith_through_replace]: the occurrence that
    follows the proper prefix is followed in turn by what completes it. *)
Lemma startswith_through_replace_glue (old new : text) :
  old <> [] ->
  forall t u,
    startswith old (u ++ replace old new t) = true ->
    startswith old (u ++ t) = true \/ glue_at old new (u ++ t) = true.
Proof.
  intros Hold t.
  induction t as [| rest IH | c t E IH] using (scan_ind old Hold);
    intros u H.
  - rewrite replace_nil in H by exact Hold. now left.
  - rewrite replace_hit in H by exact Hold.
    destruct (startswith_app_inv _ _ _ H) as [Hu | [l [Hl [Hp Hs]]]].
    + left. apply startswith_iff in Hu. destruct Hu as [r ->].
      rewrite <- app_assoc. apply startswith_app.
    + destruct u as [|y u].
      * left. simpl app. apply startswith_app.
      * right. apply (glue_at_intro old new (y :: u) l rest);
          auto; discriminate.
  - rewrite replace_miss in H by assumption.
    change (u ++ c :: replace old new t)
      with (u ++ [c] ++ replace old new t) in H.
    rewrite app_assoc in H. apply IH in H.
    rewrite <- app_assoc in H. exact H.
Qed.

(** An occurrence of [old] in the result of [replace old new] has been
    joined by a replacement, provided [new] itself cannot start one. *)
Lemma replace_glued (old new s : text) :
  old <> [] -> inert old new = true ->
  contains old (replace old new s) = true -> glued old new s = true.
Proof.
  intros Hold Hi.
  induction s as [| rest IH | c t E IH] using (scan_ind old Hold);
    intros H.
  - rewrite replace_nil, contains_nil_r in H by exact Hold. discriminate.
  - rewrite replace_hit in H by exact Hold.
    apply inert_contains in H; [| exact Hi].
    apply glued_app_l. now apply IH.
  - rewrite replace_miss in H by assumption.
    apply contains_cons_inv in H. destruct H as [H | H].
    + apply (startswith_through_replace_glue old new Hold t [c]) in H.
      simpl in H. destruct H as [H | H]; [congruence |].
      now apply glued_here.
    + apply glued_cons. now apply IH.
Qed.

Lemma proper_prefixes_split (old a b : text) :
  old = a ++ b -> a <> [] -> b <> [] ->
  In a (proper_prefixes old) /\ b = skipn (List.length a) old.
Proof.
  intros -> Ha Hb. split; [now apply proper_prefixes_In |].
  now rewrite skipn_length_app.
Qed.

End PyStrFacts.

(** ** Properties of the script *)

Module GenDocsFacts.
Import PyStr PyStrFacts GenDocs.

(** *** [rewrite_links], destination by destination *)

Lemma rewrite_links_index (s : text) :
  rewrite_links index_md s =
  replace license_ref license_url
    (replace templates_prefix templates_site (replace docs_prefix [] s)).
Proof. reflexivity. Qed.

Lemma rewrite_links_agents (s : text) :
  rewrite_links agents_md s = replace docs_prefix [] s.
Proof. reflexivity. Qed.

Lemma rewrite_links_other (name s : text) :
  name <> index_md -> name <> agents_md -> rewrite_links name s = s.
Proof.
  intros Hi Ha. apply eqb_neq in Hi, Ha. unfold rewrite_links.
  now rewrite Hi, Ha.
Qed.

(** The three destinations are told apart by name. *)
Lemma rewrite_links_cases (name : text) :
  name = index_md \/ name = agents_md \/
  (name <> index_md /\ name <> agents_md).
Proof.
  destruct (eqb name index_md) eqn:Ei; [left; now apply eqb_eq |].
  destruct (eqb name agents_md) eqn:Ea; [right; left; now apply eqb_eq |].
  right; right. split; now apply eqb_neq.
Qed.

Lemma rules_of_index : rules_of index_md = index_rules.
Proof. reflexivity. Qed.

Lemma rules_of_agents : rules_of agents_md = agents_rules.
Proof. reflexivity. Qed.

Lemma rules_of_other (name : text) :
  name <> index_md -> name <> agents_md -> rules_of name = [].
Proof.
  intros Hi Ha. apply eqb_neq in Hi, Ha. unfold rules_of.
  now rewrite Hi, Ha.
Qed.

(** The code and the rule table agree for every destination. *)
Lemma rewrite_links_apply_rules (name s : text) :
  rewrite_links name s = apply_rules (rules_of name) s.
Proof.
  destruct (rewrite_links_cases name) as [-> | [-> | [Hi Ha]]].
  - reflexivity.
  - reflexivity.
  - now rewrite rewrite_links_other, rules_of_other.
Qed.

Lemma apply_rules_absent (rules : list rule) (s : text) :
  forallb (fun old => negb (contains old s)) (map fst rules) = true ->
  apply_rules rules s = s.
Proof.
  unfold apply_rules. induction rules as [|[old new] rules IH]; intros H.
  - reflexivity.
  - cbn [map fst forallb] in H. apply andb_true_iff in H.
    destruct H as [Ho Hr]. apply negb_true_iff in Ho.
    cbn [fold_left fst snd]. rewrite (replace_absent old new s Ho).
    now apply IH.
Qed.

(** A text in which no search substring of the destination occurs is
    returned as it is. *)
Lemma rewrite_links_absent (name s : text) :
  no_match name s = true -> rewrite_links name s = s.
Proof.
  intros H. rewrite rewrite_links_apply_rules.
  now apply apply_rules_absent.
Qed.

(** What the replacement strings of the rules can and cannot touch. *)
Lemma license_isolated : isolates license_ref license_url = true.
Proof. vm_compute. reflexivity. Qed.

Lemma docs_isolated_from_templates : isolates docs_prefix templates_site = true.
Proof. vm_compute. reflexivity. Qed.

Lemma docs_isolated_from_license : isolates docs_prefix license_url = true.
Proof. vm_compute. reflexivity. Qed.

Lemma templates_isolated_from_license :
  isolates templates_prefix license_url = true.
Proof. vm_compute. reflexivity. Qed.

Lemma docs_nonempty : docs_prefix <> [].
Proof. discriminate. Qed.

Lemma templates_nonempty : templates_prefix <> [].
Proof. discriminate. Qed.

Lemma license_nonempty : license_ref <> [].
Proof. discriminate. Qed.

(** *** The staging loop *)

Lemma writes_app (tr1 tr2 : trace) :
  writes (tr1 ++ tr2) = writes tr1 ++ writes tr2.
Proof.
  induction tr1 as [|[t | t c | t] tr1 IH]; simpl; auto.
  now rewrite IH.
Qed.

Lemma written_app (tr1 tr2 : trace) :
  written (tr1 ++ tr2) = written tr1 ++ written tr2.
Proof. unfold written. now rewrite writes_app, map_app. Qed.

(** An iteration that completes appends one open, one write and one close
    of its own destination, the text being the source text rewritten. *)
Lemma stage_entry_done (h : host) (target : text) (source : path)
      (tr tr' : trace) :
  stage_entry h (target, source) tr = (Done, tr') ->
  exists content,
    read_text h source = Some content /\
    tr' = tr ++ [Opened target;
                 Wrote target (rewrite_links target content);
                 Closed target].
Proof.
  unfold stage_entry. destruct (read_text h source) as [content|];
    [| discriminate].
  destruct (open_ok h target); [| discriminate].
  destruct (write_ok h target (rewrite_links target content));
    destruct (close_ok h target (rewrite_links target content));
    try discriminate.
  intros H. injection H as <-. eauto.
Qed.

(** An iteration that raises writes nothing, unless the exception comes
    from closing the file after the write: then its own destination has been
    written. *)
Lemma stage_entry_raised (h : host) (entry : text * path)
      (tr tr' : trace) (e : error) :
  stage_entry h entry tr = (Raised e, tr') ->
  written tr' = written tr \/
  (e = CloseError (fst entry) false /\ written tr' = written tr ++ [fst entry]).
Proof.
  destruct entry as [target source]. unfold stage_entry.
  destruct (read_text h source) as [content|].
  - destruct (open_ok h target).
    + destruct (write_ok h target (rewrite_links target content));
        destruct (close_ok h target (rewrite_links target content));
        try discriminate; intros H; injection H as <- <-;
        rewrite written_app; simpl; [right | left | left]; auto using app_nil_r.
    + intros H. injection H as _ <-. now left.
  - intros H. injection H as _ <-. now left.
Qed.

(** A loop that completes has written every destination, in order. *)
Lemma stage_done (h : host) (entries : list (text * path)) :
  forall tr tr',
    stage h entries tr = (Done, tr') ->
    written tr' = written tr ++ map fst entries.
Proof.
  induction entries as [|[target source] rest IH]; intros tr tr' H.
  - simpl in H. injection H as <-. now rewrite app_nil_r.
  - cbn [stage] in H.
    destruct (stage_entry h (target, source) tr) as [[|e] tr1] eqn:E;
      [| discriminate].
    apply stage_entry_done in E. destruct E as [content [_ ->]].
    apply IH in H. rewrite H, written_app. simpl.
    now rewrite <- app_assoc.
Qed.

(** Whatever happens, the destinations written are an initial part of the
    entries. *)
Lemma stage_written_prefix (h : host) (entries : list (text * path)) :
  forall tr,
    exists k,
      written (snd (stage h entries tr)) =
      written tr ++ firstn k (map fst entries).
Proof.
  induction entries as [|[target source] rest IH]; intros tr.
  - exists 0. simpl. now rewrite app_nil_r.
  - cbn [stage].
    destruct (stage_entry h (target, source) tr) as [[|e] tr1] eqn:E.
    + apply stage_entry_done in E. destruct E as [content [_ ->]].
      destruct (IH (tr ++ [Opened target;
                           Wrote target (rewrite_links target content);
                           Closed target])) as [k Hk].
      exists (S k). rewrite Hk, written_app. simpl.
      now rewrite <- app_assoc.
    + apply stage_entry_raised in E. cbn [fst snd] in E |- *.
      destruct E as [E | [_ E]].
      * exists 0. simpl. now rewrite app_nil_r.
      * exists 1. exact E.
Qed.

(** An entry whose source cannot be read stops the loop: nothing at or
    after it is processed. *)
Lemma stage_read_failure (h : host) (pre post : list (text * path))
      (target : text) (source : path) :
  read_text h source = None ->
  forall tr,
    exists e k,
      fst (stage h (pre ++ (target, source) :: post) tr) = Raised e /\
      written (snd (stage h (pre ++ (target, source) :: post) tr)) =
      written tr ++ firstn k (map fst pre) /\
      (forallb (entry_ok h) pre = true ->
       e = ReadError source /\ k = List.length pre).
Proof.
  intros Hread. induction pre as [|[t0 s0] pre IH]; intros tr.
  - exists (ReadError source), 0. cbn [app stage stage_entry].
    rewrite Hread. simpl. rewrite app_nil_r. auto.
  - cbn [app stage].
    destruct (stage_entry h (t0, s0) tr) as [[|e0] tr1] eqn:E.
    + pose proof E as E'. apply stage_entry_done in E'.
      destruct E' as [content [_ ->]].
      destruct (IH (tr ++ [Opened t0;
                           Wrote t0 (rewrite_links t0 content);
                           Closed t0])) as [e [k [He [Hw Hall]]]].
      exists e, (S k). split; [exact He |]. split.
      * rewrite Hw, written_app. simpl. now rewrite <- app_assoc.
      * intros Hok. cbn [forallb] in Hok. apply andb_true_iff in Hok.
        destruct (Hall (proj2 Hok)) as [-> ->]. auto.
    + assert (Hnot : forallb (entry_ok h) ((t0, s0) :: pre) = true -> False).
      { intros Hok. cbn [forallb] in Hok. apply andb_true_iff in Hok.
        destruct Hok as [Hok _]. unfold entry_ok in Hok. cbn [fst snd] in Hok.
        unfold stage_entry in E. destruct (read_text h s0); [| discriminate].
        rewrite !andb_true_iff in Hok. destruct Hok as [[Ho Hw] Hc].
        rewrite Ho, Hw, Hc in E. discriminate. }
      apply stage_entry_raised in E. cbn [fst snd] in E |- *.
      destruct E as [E | [_ E]].
      * exists e0, 0. simpl. rewrite app_nil_r.
        split; [reflexivity |]. split; [exact E |].
        intros Hok. destruct (Hnot Hok).
      * exists e0, 1. split; [reflexivity |]. split; [exact E |].
        intros Hok. destruct (Hnot Hok).
Qed.

Lemma In_firstn (A : Type) (k : nat) (l : list A) (x : A) :
  In x (firstn k l) -> In x l.
Proof.
  intros H. rewrite <- (firstn_skipn k l). apply in_or_app. now left.
Qed.

Lemma NoDup_app_disjoint (A : Type) (l1 l2 : list A) (x : A) :
  NoDup (l1 ++ l2) -> In x l1 -> In x l2 -> False.
Proof.
  induction l1 as [|y l1 IH]; simpl; intros Hnd H1 H2; [exact H1 |].
  inversion Hnd as [| ? ? Hy Hnd']; subst. destruct H1 as [-> | H1].
  - apply Hy. apply in_or_app. now right.
  - now apply IH.
Qed.

(** The destination names of [SOURCES] do not depend on [ROOT] and are
    pairwise distinct. *)
Lemma SOURCES_keys (ROOT : path) :
  map fst (SOURCES ROOT) =
  [ txt "index.md"; txt "AGENTS.md"; txt "_templates/TOPIC_TEMPLATE.md";
    txt "_templates/SECTION_TEMPLATE.md"; txt "_templates/FRONT_MATTER.md" ].
Proof. reflexivity. Qed.

Lemma SOURCES_keys_NoDup (ROOT : path) : NoDup (map fst (SOURCES ROOT)).
Proof.
  rewrite SOURCES_keys.
  repeat (constructor;
          [ simpl; intros H;
            repeat (destruct H as [H | H]; [discriminate H |]); exact H | ]).
  constructor.
Qed.

(** *** Joined occurrences for the rules of the script *)

(** For the templates rule, the only proper suffix of the search substring
    that the replacement can complete is the replacement itself: a joined
    occurrence comes from ["././_templates/"]. *)
Lemma templates_glued_contains (s : text) :
  glued templates_prefix templates_site s = true ->
  contains (txt "././_templates/") s = true.
Proof.
  intros H. apply glued_inv in H.
  destruct H as [x [a [y [-> [Hin Hs]]]]].
  apply startswith_compatible_app in Hs.
  assert (Htab : forallb
            (fun a => negb (compatible
                              (skipn (List.length a) templates_prefix)
                              templates_site)
                      || eqb a (txt "./"))
            (proper_prefixes templates_prefix) = true)
    by (vm_compute; reflexivity).
  rewrite forallb_forall in Htab. specialize (Htab a Hin).
  rewrite Hs in Htab. cbn [negb orb] in Htab. apply eqb_eq in Htab. subst a.
  apply contains_iff. exists x, y. reflexivity.
Qed.

(** *** Reading the sources *)

Lemma NoDup_fst_functional (A B : Type) (l : list (A * B)) (k : A) (v1 v2 : B) :
  NoDup (map fst l) -> In (k, v1) l -> In (k, v2) l -> v1 = v2.
Proof.
  induction l as [|[k0 v0] l IH]; simpl; intros Hnd H1 H2; [destruct H1 |].
  inversion Hnd as [| ? ? Hnot Hnd']; subst.
  destruct H1 as [E1 | H1], H2 as [E2 | H2].
  - congruence.
  - injection E1 as -> ->. exfalso. apply Hnot.
    apply (in_map fst) in H2. exact H2.
  - injection E2 as -> ->. exfalso. apply Hnot.
    apply (in_map fst) in H1. exact H1.
  - now apply IH.
Qed.

Lemma universal_newlines_id (s : text) :
  existsb (Ascii.eqb CR) s = false -> universal_newlines s = s.
Proof.
  induction s as [|c s IH]; [reflexivity |].
  cbn [existsb]. intros H. apply orb_false_iff in H. destruct H as [Hc Hs].
  cbn [universal_newlines]. rewrite Ascii.eqb_sym in Hc. rewrite Hc.
  now rewrite IH.
Qed.

Lemma read_text_Some (h : host) (source : path) (content : text) :
  read_text h source = Some content ->
  exists raw,
    source_text h source = Some raw /\ content = universal_newlines raw.
Proof.
  unfold read_text. destruct (source_text h source) as [raw|];
    [| discriminate].
  intros H. injection H as <-. eauto.
Qed.

(** In a loop that completes, the pairs written are, entry by entry, the
    destination with the text read from its source, rewritten. *)
Lemma stage_done_writes (h : host) (entries : list (text * path)) :
  forall tr tr',
    stage h entries tr = (Done, tr') ->
    map Some (writes tr') =
    map Some (writes tr) ++
    map (fun e => option_map (fun c => (fst e, rewrite_links (fst e) c))
                             (read_text h (snd e))) entries.
Proof.
  induction entries as [|[target source] rest IH]; intros tr tr' H.
  - simpl in H. injection H as <-. now rewrite app_nil_r.
  - cbn [stage] in H.
    destruct (stage_entry h (target, source) tr) as [[|e] tr1] eqn:E;
      [| discriminate].
    apply stage_entry_done in E. destruct E as [content [Hr ->]].
    apply IH in H. rewrite H, writes_app. cbn [map fst snd writes].
    rewrite Hr, map_app, <- app_assoc. reflexivity.
Qed.

End GenDocsFacts.

(** ** The specification, claim by claim *)

Module GenDocsSpec.
Import PyStr PyStrFacts GenDocs GenDocsFacts.

(** C1, as the specification words it, fails: on the landing page the text
    ["./doc./docs/s/"], which contains ["./docs/"], is rewritten to
    ["./docs/"], and ["./docs/././_templates/"] is rewritten to
    ["./_templates/"]. *)
Lemma index_output_keeps_search_substrings :
  contains docs_prefix (txt "./doc./docs/s/") = true /\
  rewrite_links index_md (txt "./doc./docs/s/") = txt "./docs/" /\
  contains docs_prefix (rewrite_links index_md (txt "./doc./docs/s/")) = true /\
  contains docs_prefix (txt "./docs/././_templates/") = true /\
  rewrite_links index_md (txt "./docs/././_templates/") = txt "./_templates/" /\
  contains templates_prefix
    (rewrite_links index_md (txt "./docs/././_templates/")) = true.
Proof. repeat split; vm_compute; reflexivity. Qed.

(** C1 (amended).  For the destination ["index.md"] and every input text
    [s], the output is what the three rules give in turn, each replacing from
    left to right, without overlap, the occurrences of its search substring
    by its replacement: ["./docs/"] by the empty string (giving [s1]), then
    ["./_templates/"] by ["_templates/"], then ["./LICENSE"] by the licence
    URL.  The output contains no occurrence of ["./LICENSE"].  It contains
    no occurrence of ["./docs/"] unless a deletion has joined one: somewhere
    in [s] a non-empty proper prefix of ["./docs/"] is followed by an
    occurrence of ["./docs/"] and then by a text whose rewriting by the
    first rule starts with the missing end of ["./docs/"].  It contains no
    occurrence of ["./_templates/"] unless [s1] contains
    ["././_templates/"]. *)
Theorem index_output_residue (s : text) :
  (exists s1 s2,
      s1 = replace docs_prefix (txt "") s /\
      Replaced docs_prefix (txt "") s s1 /\
      Replaced templates_prefix templates_site s1 s2 /\
      Replaced license_ref license_url s2 (rewrite_links index_md s)) /\
  contains license_ref (rewrite_links index_md s) = false /\
  (glued docs_prefix (txt "") s = false ->
   contains docs_prefix (rewrite_links index_md s) = false) /\
  (contains (txt "././_templates/") (replace docs_prefix (txt "") s) = false ->
   contains templates_prefix (rewrite_links index_md s) = false).
Proof.
  rewrite rewrite_links_index.
  change (txt "") with (@nil ascii).
  set (s1 := replace docs_prefix [] s).
  set (s2 := replace templates_prefix templates_site s1).
  split; [| split; [| split]].
  - exists s1, s2. split; [reflexivity |].
    split; [apply replace_Replaced, docs_nonempty |].
    split; [apply replace_Replaced, templates_nonempty |].
    apply replace_Replaced, license_nonempty.
  - apply replace_clean; [exact license_isolated | exact license_nonempty].
  - intros Hpre.
    destruct (contains docs_prefix (replace license_ref license_url s2)) eqn:H;
      [| reflexivity].
    apply replace_introduces_none in H;
      [| exact docs_isolated_from_license | exact license_nonempty].
    apply replace_introduces_none in H;
      [| exact docs_isolated_from_templates | exact templates_nonempty].
    apply replace_glued in H; [congruence | exact docs_nonempty | reflexivity].
  - intros Hpre.
    destruct (contains templates_prefix (replace license_ref license_url s2))
      eqn:H; [| reflexivity].
    apply replace_introduces_none in H;
      [| exact templates_isolated_from_license | exact license_nonempty].
    apply replace_glued in H; [| exact templates_nonempty | reflexivity].
    apply templates_glued_contains in H. congruence.
Qed.

Lemma index_output_residue_witness :
  contains docs_prefix (txt "[up](../docs/a.md) [t](./_templates/T.md) ./docs/b.md")
    = true /\
  rewrite_links index_md
    (txt "[up](../docs/a.md) [t](./_templates/T.md) ./docs/b.md")
    = txt "[up](.a.md) [t](_templates/T.md) b.md" /\
  contains docs_prefix
    (rewrite_links index_md
       (txt "[up](../docs/a.md) [t](./_templates/T.md) ./docs/b.md")) = false /\
  contains templates_prefix
    (rewrite_links index_md
       (txt "[up](../docs/a.md) [t](./_templates/T.md) ./docs/b.md")) = false.
Proof.
  destruct (index_output_residue
              (txt "[up](../docs/a.md) [t](./_templates/T.md) ./docs/b.md"))
    as [_ [_ [Hd Ht]]].
  split; [reflexivity |]. split; [reflexivity |].
  split; [apply Hd | apply Ht]; reflexivity.
Defined.

(** C2, as the specification words it, fails: for ["AGENTS.md"] the text
    ["./doc./docs/s/"] is rewritten to ["./docs/"], which a second
    application rewrites to the empty text. *)
Lemma rewrite_links_not_idempotent :
  rewrite_links agents_md (txt "./doc./docs/s/") = txt "./docs/" /\
  rewrite_links agents_md (rewrite_links agents_md (txt "./doc./docs/s/"))
    = txt "" /\
  rewrite_links agents_md (rewrite_links agents_md (txt "./doc./docs/s/"))
    <> rewrite_links agents_md (txt "./doc./docs/s/").
Proof. repeat split; vm_compute; try reflexivity; discriminate. Qed.

(** C2 (amended).  Rewriting a second time changes nothing, for
    ["AGENTS.md"] when no deletion joins an occurrence of ["./docs/"] in the
    input (no non-empty proper prefix of ["./docs/"] followed by an
    occurrence of ["./docs/"] and then by a text whose rewriting starts with
    the missing end); for ["index.md"] when moreover the text left by the
    first rule does not contain ["././_templates/"]; and for every other
    destination name always. *)
Theorem rewrite_links_idempotent_unless_glued (s : text) :
  (glued docs_prefix (txt "") s = false ->
   rewrite_links agents_md (rewrite_links agents_md s)
     = rewrite_links agents_md s) /\
  (glued docs_prefix (txt "") s = false ->
   contains (txt "././_templates/") (replace docs_prefix (txt "") s) = false ->
   rewrite_links index_md (rewrite_links index_md s)
     = rewrite_links index_md s) /\
  (forall name, name <> index_md -> name <> agents_md ->
     rewrite_links name (rewrite_links name s) = rewrite_links name s).
Proof.
  change (txt "") with (@nil ascii). split; [| split].
  - intros Hd. rewrite !rewrite_links_agents. apply replace_absent.
    destruct (contains docs_prefix (replace docs_prefix [] s)) eqn:H;
      [| reflexivity].
    apply replace_glued in H; [congruence | exact docs_nonempty | reflexivity].
  - intros Hd Ht. apply rewrite_links_absent. rewrite rewrite_links_index.
    set (s1 := replace docs_prefix [] s) in *.
    set (s2 := replace templates_prefix templates_site s1).
    set (out := replace license_ref license_url s2).
    assert (Ed : contains docs_prefix out = false).
    { destruct (contains docs_prefix out) eqn:H; [| reflexivity].
      apply replace_introduces_none in H;
        [| exact docs_isolated_from_license | exact license_nonempty].
      apply replace_introduces_none in H;
        [| exact docs_isolated_from_templates | exact templates_nonempty].
      apply replace_glued in H;
        [congruence | exact docs_nonempty | reflexivity]. }
    assert (Et : contains templates_prefix out = false).
    { destruct (contains templates_prefix out) eqn:H; [| reflexivity].
      apply replace_introduces_none in H;
        [| exact templates_isolated_from_license | exact license_nonempty].
      apply replace_glued in H; [| exact templates_nonempty | reflexivity].
      apply templates_glued_contains in H. congruence. }
    assert (El : contains license_ref out = false)
      by (apply replace_clean;
          [exact license_isolated | exact license_nonempty]).
    unfold no_match.
    change (search_substrings index_md)
      with [docs_prefix; templates_prefix; license_ref].
    cbn [forallb]. now rewrite Ed, Et, El.
  - intros name Hi Ha. now rewrite !rewrite_links_other.
Qed.

Lemma rewrite_links_idempotent_unless_glued_witness :
  rewrite_links agents_md
    (rewrite_links agents_md (txt "[up](../docs/a.md) ./docs/b.md"))
    = rewrite_links agents_md (txt "[up](../docs/a.md) ./docs/b.md") /\
  rewrite_links index_md
    (rewrite_links index_md (txt "[up](../docs/a.md) ./_templates/T.md"))
    = rewrite_links index_md (txt "[up](../docs/a.md) ./_templates/T.md").
Proof.
  split.
  - apply (proj1 (rewrite_links_idempotent_unless_glued
                    (txt "[up](../docs/a.md) ./docs/b.md"))).
    reflexivity.
  - apply (proj1 (proj2 (rewrite_links_idempotent_unless_glued
                           (txt "[up](../docs/a.md) ./_templates/T.md"))));
      reflexivity.
Defined.

(** C3.  For the destination ["index.md"], [rewrite_links] is the reference
    definition: the three literal replacements ["./docs/"] by the empty
    string, ["./_templates/"] by ["_templates/"], ["./LICENSE"] by the
    licence URL, applied to the whole text in this order; each is the
    left-to-right replacement of the occurrences of its search substring,
    so the result is the only text the three steps can give. *)
Theorem rewrite_links_index_reference (s : text) :
  index_rules =
    [ (txt "./docs/", txt "");
      (txt "./_templates/", txt "_templates/");
      (txt "./LICENSE",
        txt "https://github.com/artificial-intelligence-first/ssot/blob/main/LICENSE") ] /\
  rewrite_links index_md s = apply_rules index_rules s /\
  forall out,
    (exists s1 s2,
        Replaced docs_prefix [] s s1 /\
        Replaced templates_prefix templates_site s1 s2 /\
        Replaced license_ref license_url s2 out)
    <-> out = rewrite_links index_md s.
Proof.
  split; [reflexivity |]. split; [reflexivity |].
  intros out. rewrite rewrite_links_index. split.
  - intros [s1 [s2 [H1 [H2 H3]]]].
    apply Replaced_replace in H1; [| exact docs_nonempty].
    apply Replaced_replace in H2; [| exact templates_nonempty].
    apply Replaced_replace in H3; [| exact license_nonempty].
    now subst.
  - intros ->. eexists. eexists.
    split; [apply replace_Replaced, docs_nonempty |].
    split; [apply replace_Replaced, templates_nonempty |].
    apply replace_Replaced, license_nonempty.
Qed.

(** C4.  For the destination ["AGENTS.md"], [rewrite_links] replaces the
    occurrences of ["./docs/"] by the empty string and does nothing else; the
    text ["See ./docs/guide.md for details."] becomes
    ["See guide.md for details."]. *)
Theorem rewrite_links_agents_reference :
  (forall s, rewrite_links agents_md s = replace (txt "./docs/") (txt "") s) /\
  (forall s out,
      Replaced (txt "./docs/") (txt "") s out <->
      out = rewrite_links agents_md s) /\
  rewrite_links (txt "AGENTS.md") (txt "See ./docs/guide.md for details.")
    = txt "See guide.md for details.".
Proof.
  split; [reflexivity |]. split; [| vm_compute; reflexivity].
  intros s out. rewrite rewrite_links_agents. split.
  - now apply Replaced_replace.
  - intros ->. now apply replace_Replaced.
Qed.

(** C5, as the specification words it, fails in its conclusion: a template
    whose lines end with a carriage return and a line feed is staged with
    line feeds only, so the text written differs from the content of the
    source. *)
Lemma template_staged_differs_from_source :
  source_text crlf_host
    (joinpath sample_root [txt "_templates"; txt "TOPIC_TEMPLATE.md"])
    = Some [ "a"%char; CR; LF; "b"%char; CR; LF ] /\
  fst (run sample_root crlf_host) = Done /\
  In (txt "_templates/TOPIC_TEMPLATE.md", [ "a"%char; LF; "b"%char; LF ])
     (writes (snd (run sample_root crlf_host))) /\
  ~ In (txt "_templates/TOPIC_TEMPLATE.md", [ "a"%char; CR; LF; "b"%char; CR; LF ])
       (writes (snd (run sample_root crlf_host))).
Proof.
  split; [reflexivity |]. split; [reflexivity |]. split.
  - vm_compute. right; right; left. reflexivity.
  - vm_compute. intros H.
    repeat (destruct H as [H | H]; [discriminate H |]). exact H.
Qed.

(** C5 (amended).  For every destination name other than ["index.md"] and
    ["AGENTS.md"], and every input text, [rewrite_links] returns the input
    text unchanged.  So in a run that completes, the one text written under
    such a destination is the text read from its source: the content of the
    source with every carriage return and line feed pair, and every other
    carriage return, read as a line feed; it is the content of the source
    itself when that has no carriage return. *)
Theorem rewrite_links_verbatim :
  (forall name s : text,
      name <> txt "index.md" -> name <> txt "AGENTS.md" ->
      rewrite_links name s = s) /\
  (forall (ROOT : path) (h : host) (tr : trace) (target : text)
          (source : path),
      run ROOT h = (Done, tr) ->
      In (target, source) (SOURCES ROOT) ->
      target <> txt "index.md" -> target <> txt "AGENTS.md" ->
      exists raw,
        source_text h source = Some raw /\
        In (target, universal_newlines raw) (writes tr) /\
        (forall content,
            In (target, content) (writes tr) ->
            content = universal_newlines raw) /\
        (existsb (Ascii.eqb CR) raw = false -> In (target, raw) (writes tr))).
Proof.
  split; [exact rewrite_links_other |].
  intros ROOT h tr target source Hrun Hin Hi Ha.
  pose proof (stage_done _ _ _ _ Hrun) as Hkeys.
  change (written [] ++ map fst (SOURCES ROOT))
    with (map fst (SOURCES ROOT)) in Hkeys.
  apply stage_done_writes in Hrun. cbn [writes map app] in Hrun.
  set (f := fun e : text * path =>
              option_map (fun c => (fst e, rewrite_links (fst e) c))
                         (read_text h (snd e))) in Hrun.
  assert (Hf : In (f (target, source)) (map Some (writes tr)))
    by (rewrite Hrun; now apply in_map).
  apply in_map_iff in Hf. destruct Hf as [w [Hw Hinw]].
  unfold f in Hw. cbn [fst snd] in Hw.
  destruct (read_text h source) as [content|] eqn:Hr; [| discriminate].
  cbn [option_map] in Hw. injection Hw as ->.
  rewrite (rewrite_links_other target content Hi Ha) in Hinw.
  apply read_text_Some in Hr. destruct Hr as [raw [Hraw ->]].
  exists raw. split; [exact Hraw |]. split; [exact Hinw |]. split.
  - intros c Hc.
    apply (NoDup_fst_functional _ _ (writes tr) target); auto.
    fold (written tr). rewrite Hkeys. apply SOURCES_keys_NoDup.
  - intros Hcr. now rewrite universal_newlines_id in Hinw.
Qed.

Lemma rewrite_links_verbatim_witness :
  rewrite_links (txt "_templates/FRONT_MATTER.md") sample_page = sample_page /\
  exists raw,
    source_text sample_host
      (joinpath sample_root [txt "_templates"; txt "TOPIC_TEMPLATE.md"])
      = Some raw /\
    In (txt "_templates/TOPIC_TEMPLATE.md", universal_newlines raw)
       (writes (snd (run sample_root sample_host))) /\
    (forall content,
        In (txt "_templates/TOPIC_TEMPLATE.md", content)
           (writes (snd (run sample_root sample_host))) ->
        content = universal_newlines raw) /\
    (existsb (Ascii.eqb CR) raw = false ->
     In (txt "_templates/TOPIC_TEMPLATE.md", raw)
        (writes (snd (run sample_root sample_host)))).
Proof.
  split.
  - apply (proj1 rewrite_links_verbatim); discriminate.
  - apply (proj2 rewrite_links_verbatim sample_root sample_host).
    + reflexivity.
    + right; right; left. reflexivity.
    + discriminate.
    + discriminate.
Defined.

(** C6.  A run that completes has written exactly the five destinations of
    the mapping table, ["index.md"], ["AGENTS.md"],
    ["_templates/TOPIC_TEMPLATE.md"], ["_templates/SECTION_TEMPLATE.md"] and
    ["_templates/FRONT_MATTER.md"], each once and in the declared order. *)
Theorem run_done_written (ROOT : path) (h : host) (tr : trace) :
  run ROOT h = (Done, tr) ->
  written tr = map fst (SOURCES ROOT) /\
  written tr =
    [ txt "index.md"; txt "AGENTS.md"; txt "_templates/TOPIC_TEMPLATE.md";
      txt "_templates/SECTION_TEMPLATE.md"; txt "_templates/FRONT_MATTER.md" ] /\
  NoDup (written tr).
Proof.
  intros H. apply stage_done in H.
  change (written [] ++ map fst (SOURCES ROOT))
    with (map fst (SOURCES ROOT)) in H.
  rewrite H. split; [reflexivity |]. split; [apply SOURCES_keys |].
  apply SOURCES_keys_NoDup.
Qed.

Lemma run_done_written_witness :
  fst (run sample_root sample_host) = Done /\
  written (snd (run sample_root sample_host)) =
    [ txt "index.md"; txt "AGENTS.md"; txt "_templates/TOPIC_TEMPLATE.md";
      txt "_templates/SECTION_TEMPLATE.md"; txt "_templates/FRONT_MATTER.md" ].
Proof.
  split; [reflexivity |].
  apply (run_done_written sample_root sample_host
           (snd (run sample_root sample_host))).
  reflexivity.
Defined.

(** C7.  If reading the source of an entry fails, the run ends with the
    exception raised: the destination of that entry is not written and no
    destination declared after it is written; when the entries before it all
    complete, the exception is the read error of that source and the
    destinations written are exactly those declared before it. *)
Theorem read_failure_aborts (ROOT : path) (h : host)
        (pre post : list (text * path)) (target : text) (source : path) :
  SOURCES ROOT = pre ++ (target, source) :: post ->
  read_text h source = None ->
  (exists e, fst (run ROOT h) = Raised e) /\
  ~ In target (written (snd (run ROOT h))) /\
  (forall t, In t (map fst post) -> ~ In t (written (snd (run ROOT h)))) /\
  (forallb (entry_ok h) pre = true ->
   fst (run ROOT h) = Raised (ReadError source) /\
   written (snd (run ROOT h)) = map fst pre).
Proof.
  intros Hsrc Hread.
  pose proof (SOURCES_keys_NoDup ROOT) as Hnd.
  rewrite Hsrc, map_app in Hnd. cbn [map fst] in Hnd.
  unfold run. rewrite Hsrc.
  destruct (stage_read_failure h pre post target source Hread [])
    as [e [k [He [Hw Hall]]]].
  change (written [] ++ firstn k (map fst pre))
    with (firstn k (map fst pre)) in Hw.
  rewrite Hw. split; [eauto |]. split; [| split].
  - intros Hin. apply In_firstn in Hin.
    apply (NoDup_remove_2 _ _ _ Hnd). apply in_or_app. now left.
  - intros t Ht Hin. apply In_firstn in Hin.
    apply (NoDup_app_disjoint _ _ _ t Hnd Hin). now right.
  - intros Hok. destruct (Hall Hok) as [-> ->].
    split; [exact He |]. rewrite <- length_map with (f := fst).
    apply firstn_all.
Qed.

Lemma read_failure_aborts_witness :
  read_text broken_host (joinpath sample_root [txt "AGENTS.md"]) = None /\
  fst (run sample_root broken_host)
    = Raised (ReadError (joinpath sample_root [txt "AGENTS.md"])) /\
  written (snd (run sample_root broken_host)) = [txt "index.md"].
Proof.
  split; [reflexivity |].
  destruct (read_failure_aborts sample_root broken_host
              (firstn 1 (SOURCES sample_root))
              (skipn 2 (SOURCES sample_root))
              agents_md (joinpath sample_root [txt "AGENTS.md"])
              eq_refl eq_refl) as [_ [_ [_ H]]].
  apply H. reflexivity.
Defined.

(** C8.  For every destination name and every input text in which none of
    the search substrings of that destination occurs, [rewrite_links]
    returns the input text unchanged; it is a total function, so there is
    no failure. *)
Theorem rewrite_links_no_match_noop (name s : text) :
  no_match name s = true -> rewrite_links name s = s.
Proof. apply rewrite_links_absent. Qed.

Lemma rewrite_links_no_match_noop_witness :
  search_substrings index_md =
    [txt "./docs/"; txt "./_templates/"; txt "./LICENSE"] /\
  search_substrings agents_md = [txt "./docs/"] /\
  rewrite_links index_md (txt "A page without links.")
    = txt "A page without links." /\
  rewrite_links agents_md (txt "See docs/guide.md and ./LICENSE.")
    = txt "See docs/guide.md and ./LICENSE.".
Proof.
  split; [reflexivity |]. split; [reflexivity |].
  split; apply rewrite_links_no_match_noop; reflexivity.
Defined.

(** C10.  Each rule is one left-to-right scan without overlap, as
    [str.replace] does it: occurrences of the search substring that the
    replacements form by joining the text around them are not replaced.
    For every way of cutting ["./docs/"] in two non-empty parts [a] and [b],
    the text [a], ["./docs/"], [b] is rewritten to ["./docs/"] for both
    destinations that have the rule; so ["./doc./docs/s/"] becomes
    ["./docs/"], which the output contains. *)
Theorem replace_is_one_scan :
  Forall (fun r : rule =>
            forall s, Replaced (fst r) (snd r) s (replace (fst r) (snd r) s))
         index_rules /\
  (forall s, Replaced docs_prefix (txt "") s (rewrite_links agents_md s)) /\
  (forall a b : text,
      docs_prefix = a ++ b -> a <> [] -> b <> [] ->
      rewrite_links agents_md (a ++ docs_prefix ++ b) = docs_prefix /\
      rewrite_links index_md (a ++ docs_prefix ++ b) = docs_prefix) /\
  replace docs_prefix [] (txt "./doc./docs/s/") = txt "./docs/" /\
  rewrite_links agents_md (txt "./doc./docs/s/") = txt "./docs/" /\
  rewrite_links index_md (txt "./doc./docs/s/") = txt "./docs/" /\
  contains docs_prefix (rewrite_links agents_md (txt "./doc./docs/s/")) = true /\
  contains docs_prefix (rewrite_links index_md (txt "./doc./docs/s/")) = true.
Proof.
  split; [| split; [| split]].
  - repeat constructor; intros s; apply replace_Replaced; discriminate.
  - intros s. rewrite rewrite_links_agents.
    apply replace_Replaced, docs_nonempty.
  - intros a b Hab Ha Hb.
    destruct (proper_prefixes_split docs_prefix a b Hab Ha Hb) as [Hin ->].
    assert (Htab : forallb
              (fun a =>
                 eqb (rewrite_links agents_md
                        (a ++ docs_prefix ++ skipn (List.length a) docs_prefix))
                     docs_prefix &&
                 eqb (rewrite_links index_md
                        (a ++ docs_prefix ++ skipn (List.length a) docs_prefix))
                     docs_prefix)
              (proper_prefixes docs_prefix) = true)
      by (vm_compute; reflexivity).
    rewrite forallb_forall in Htab. specialize (Htab a Hin).
    apply andb_true_iff in Htab. destruct Htab as [H1 H2].
    apply eqb_eq in H1, H2. now split.
  - repeat split; vm_compute; reflexivity.
Qed.

Lemma replace_is_one_scan_witness :
  rewrite_links agents_md (txt "./do" ++ docs_prefix ++ txt "cs/") = docs_prefix /\
  rewrite_links index_md (txt "./do" ++ docs_prefix ++ txt "cs/") = docs_prefix.
Proof.
  apply (proj1 (proj2 (proj2 replace_is_one_scan)) (txt "./do") (txt "cs/"));
    [reflexivity | discriminate | discriminate].
Defined.

End GenDocsSpec.

(** ** More on [replace] *)

Module ReplaceFacts.
Import PyStr PyStrFacts.

Lemma contains_app_prefix (p q s : text) :
  contains (p ++ q) s = true -> contains p s = true.
Proof.
  rewrite !contains_iff. intros [a [b ->]].
  exists a, (q ++ b). now rewrite <- app_assoc.
Qed.

Lemma existsb_eqb_In (c : ascii) (p : text) :
  existsb (Ascii.eqb c) p = false -> ~ In c p.
Proof.
  intros H Hin. assert (E : existsb (Ascii.eqb c) p = true).
  { apply existsb_exists. exists c. split; [exact Hin | apply Ascii.eqb_refl]. }
  congruence.
Qed.

Lemma startswith_head (old t : text) (c : ascii) :
  ~ In c old -> old <> [] -> startswith old (c :: t) = false.
Proof.
  intros Hc Hold. destruct old as [|x old]; [congruence |].
  simpl. destruct (Ascii.eqb x c) eqn:E; [| reflexivity].
  apply Ascii.eqb_eq in E. subst x. exfalso. apply Hc. now left.
Qed.

(** A character that is not in [old] cuts the scan in two. *)
Lemma replace_split (old new a b : text) (c : ascii) :
  old <> [] -> ~ In c old ->
  replace old new (a ++ c :: b) = replace old new a ++ c :: replace old new b.
Proof.
  intros Hold Hc.
  induction a as [| rest IH | c0 t E IH] using (scan_ind old Hold).
  - simpl app. rewrite replace_miss, replace_nil; auto.
    now apply startswith_head.
  - rewrite <- app_assoc, !replace_hit, IH by exact Hold.
    now rewrite app_assoc.
  - change ((c0 :: t) ++ c :: b) with (c0 :: (t ++ c :: b)).
    rewrite !replace_miss, IH; auto.
    destruct (startswith old (c0 :: t ++ c :: b)) eqn:S; [| reflexivity].
    change (c0 :: t ++ c :: b) with ((c0 :: t) ++ c :: b) in S.
    destruct (startswith_app_inv _ _ _ S) as [S' | [l [Hl [Hp Hs]]]];
      [congruence |].
    exfalso. apply Hc. rewrite Hp. apply in_or_app. right.
    destruct l as [|y l]; [congruence |].
    simpl in Hs. apply andb_true_iff in Hs. destruct Hs as [Hy _].
    apply Ascii.eqb_eq in Hy. subst y. now left.
Qed.

(** Deleting occurrences never lengthens the text, and shortens it when
    there is one. *)
Lemma delete_length_le (old s : text) :
  old <> [] -> List.length (replace old [] s) <= List.length s.
Proof.
  intros Hold.
  induction s as [| rest IH | c t E IH] using (scan_ind old Hold).
  - now rewrite replace_nil.
  - rewrite replace_hit by exact Hold. simpl app. rewrite length_app. lia.
  - rewrite replace_miss by assumption. simpl. lia.
Qed.

Lemma delete_length_lt (old s : text) :
  old <> [] -> contains old s = true ->
  List.length (replace old [] s) < List.length s.
Proof.
  intros Hold.
  induction s as [| rest IH | c t E IH] using (scan_ind old Hold); intros H.
  - rewrite contains_nil_r in H by exact Hold. discriminate.
  - rewrite replace_hit by exact Hold. simpl app. rewrite length_app.
    pose proof (delete_length_le old rest Hold) as Hle.
    assert (0 < List.length old) as Hpos
      by (destruct old; [congruence | simpl; lia]).
    lia.
  - rewrite replace_miss by assumption.
    apply contains_cons_inv in H. destruct H as [H | H]; [congruence |].
    simpl. apply IH in H. lia.
Qed.

End ReplaceFacts.

(** ** Further properties of the script *)

Module GenDocsMore.
Import PyStr PyStrFacts ReplaceFacts GenDocs GenDocsFacts.

(** *** Link rewriting *)

Lemma search_substrings_dot_slash (name old : text) :
  In old (search_substrings name) -> exists q, old = txt "./" ++ q.
Proof.
  destruct (rewrite_links_cases name) as [-> | [-> | [Hi Ha]]].
  - change (search_substrings index_md)
      with [docs_prefix; templates_prefix; license_ref].
    intros [<- | [<- | [<- | []]]];
      [exists (txt "docs/") | exists (txt "_templates/") | exists (txt "LICENSE")];
      reflexivity.
  - change (search_substrings agents_md) with [docs_prefix].
    intros [<- | []]. exists (txt "docs/"). reflexivity.
  - unfold search_substrings. rewrite rules_of_other by assumption.
    intros [].
Qed.

(** Every rule looks for a substring that starts with ["./"]: a text without
    ["./"] is returned as it is, whatever the destination. *)
Theorem rewrite_links_without_dot_slash (name s : text) :
  contains (txt "./") s = false -> rewrite_links name s = s.
Proof.
  intros H. apply rewrite_links_absent. unfold no_match.
  apply forallb_forall. intros old Hin. apply negb_true_iff.
  destruct (search_substrings_dot_slash name old Hin) as [q ->].
  destruct (contains (txt "./" ++ q) s) eqn:E; [| reflexivity].
  apply contains_app_prefix in E. congruence.
Qed.

Lemma rewrite_links_without_dot_slash_witness :
  rewrite_links index_md (txt "[guide](docs/guide.md), see /LICENSE.")
    = txt "[guide](docs/guide.md), see /LICENSE.".
Proof.
  apply rewrite_links_without_dot_slash. reflexivity.
Defined.

Lemma separator_spec (c : ascii) (name old : text) :
  forallb (fun old => negb (existsb (Ascii.eqb c) old))
          (search_substrings name) = true ->
  In old (search_substrings name) -> ~ In c old.
Proof.
  intros H Hin. rewrite forallb_forall in H. specialize (H _ Hin).
  apply negb_true_iff in H. now apply existsb_eqb_In.
Qed.

(** Rewriting is local: at a character that occurs in no search substring of
    the destination (a line break, a space, a bracket), the text can be cut
    and the two parts rewritten separately. *)
Theorem rewrite_links_split (name a b : text) (c : ascii) :
  forallb (fun old => negb (existsb (Ascii.eqb c) old))
          (search_substrings name) = true ->
  rewrite_links name (a ++ c :: b) =
  rewrite_links name a ++ c :: rewrite_links name b.
Proof.
  intros H. pose proof (separator_spec c name) as Hsep.
  specialize (fun old => Hsep old H). clear H.
  destruct (rewrite_links_cases name) as [-> | [-> | [Hi Ha]]].
  - assert (Hd : ~ In c docs_prefix) by (apply Hsep; now left).
    assert (Ht : ~ In c templates_prefix) by (apply Hsep; right; now left).
    assert (Hl : ~ In c license_ref) by (apply Hsep; right; right; now left).
    rewrite !rewrite_links_index.
    rewrite (replace_split docs_prefix [] a b c docs_nonempty Hd).
    rewrite (replace_split templates_prefix templates_site _ _ c
               templates_nonempty Ht).
    now rewrite (replace_split license_ref license_url _ _ c
                   license_nonempty Hl).
  - assert (Hd : ~ In c docs_prefix) by (apply Hsep; now left).
    rewrite !rewrite_links_agents.
    exact (replace_split docs_prefix [] a b c docs_nonempty Hd).
  - now rewrite !rewrite_links_other.
Qed.

Lemma rewrite_links_split_witness :
  rewrite_links index_md
    (txt "[a](./docs/a.md)" ++ " "%char :: txt "[l](./LICENSE)")
  = rewrite_links index_md (txt "[a](./docs/a.md)") ++
    " "%char :: rewrite_links index_md (txt "[l](./LICENSE)").
Proof.
  apply rewrite_links_split. reflexivity.
Defined.

(** For ["AGENTS.md"] the rewritten text is never longer than the input, and
    it differs from the input exactly when ["./docs/"] occurs in the input. *)
Theorem rewrite_links_agents_shrinks (s : text) :
  List.length (rewrite_links agents_md s) <= List.length s /\
  (rewrite_links agents_md s = s <-> contains docs_prefix s = false).
Proof.
  rewrite rewrite_links_agents. split.
  - apply delete_length_le, docs_nonempty.
  - split.
    + intros Heq. destruct (contains docs_prefix s) eqn:E; [| reflexivity].
      apply (delete_length_lt docs_prefix s docs_nonempty) in E.
      rewrite Heq in E. lia.
    + apply replace_absent.
Qed.

(** The three search substrings are absent from the landing-page output when
    the occurrences of ["./docs/"] and ["./_templates/"] do not follow a
    proper prefix of themselves. *)
Lemma index_output_no_match (s : text) :
  self_preceded docs_prefix s = false ->
  self_preceded templates_prefix (replace docs_prefix [] s) = false ->
  no_match index_md (rewrite_links index_md s) = true.
Proof.
  intros Hd Ht. rewrite rewrite_links_index.
  set (s1 := replace docs_prefix [] s) in *.
  set (s2 := replace templates_prefix templates_site s1).
  set (out := replace license_ref license_url s2).
  assert (Ed : contains docs_prefix out = false).
  { destruct (contains docs_prefix out) eqn:H; [| reflexivity].
    apply replace_introduces_none in H;
      [| exact docs_isolated_from_license | exact license_nonempty].
    apply replace_introduces_none in H;
      [| exact docs_isolated_from_templates | exact templates_nonempty].
    apply replace_residual in H;
      [congruence | exact docs_nonempty | reflexivity]. }
  assert (Et : contains templates_prefix out = false).
  { destruct (contains templates_prefix out) eqn:H; [| reflexivity].
    apply replace_introduces_none in H;
      [| exact templates_isolated_from_license | exact license_nonempty].
    apply replace_residual in H;
      [congruence | exact templates_nonempty | reflexivity]. }
  assert (El : contains license_ref out = false)
    by (apply replace_clean; [exact license_isolated | exact license_nonempty]).
  unfold no_match.
  change (search_substrings index_md)
    with [docs_prefix; templates_prefix; license_ref].
  cbn [forallb]. now rewrite Ed, Et, El.
Qed.

(** Rewriting twice gives the same as rewriting once on texts whose links
    are not glued to a fragment of a search substring: for ["AGENTS.md"] when
    no occurrence of ["./docs/"] in the input follows a proper prefix of
    ["./docs/"], and for ["index.md"] when moreover the same holds of
    ["./_templates/"] in the text left by the first rule. *)
Theorem rewrite_links_idempotent_on_plain_links (s : text) :
  self_preceded docs_prefix s = false ->
  rewrite_links agents_md (rewrite_links agents_md s)
    = rewrite_links agents_md s /\
  (self_preceded templates_prefix (replace docs_prefix (txt "") s) = false ->
   rewrite_links index_md (rewrite_links index_md s)
     = rewrite_links index_md s).
Proof.
  intros Hd. split.
  - rewrite !rewrite_links_agents. apply replace_absent.
    destruct (contains docs_prefix (replace docs_prefix [] s)) eqn:H;
      [| reflexivity].
    apply replace_residual in H;
      [congruence | exact docs_nonempty | reflexivity].
  - intros Ht. apply rewrite_links_absent. now apply index_output_no_match.
Qed.

Lemma rewrite_links_idempotent_on_plain_links_witness :
  rewrite_links agents_md (rewrite_links agents_md sample_page)
    = rewrite_links agents_md sample_page /\
  rewrite_links index_md (rewrite_links index_md sample_page)
    = rewrite_links index_md sample_page.
Proof.
  destruct (rewrite_links_idempotent_on_plain_links sample_page eq_refl)
    as [Ha Hi].
  split; [exact Ha | apply Hi; reflexivity].
Defined.

(** *** The staging loop *)

Lemma stage_entry_ok (h : host) (entry : text * path) (tr : trace) :
  entry_ok h entry = true ->
  exists content,
    read_text h (snd entry) = Some content /\
    stage_entry h entry tr =
    (Done, tr ++ block (fst entry, rewrite_links (fst entry) content)).
Proof.
  destruct entry as [target source]. unfold entry_ok, stage_entry.
  cbn [fst snd]. destruct (read_text h source) as [content|]; [| discriminate].
  intros H. rewrite !andb_true_iff in H. destruct H as [[Ho Hw] Hc].
  rewrite Ho, Hw, Hc. eauto.
Qed.

Lemma stage_Done_iff (h : host) (entries : list (text * path)) :
  forall tr,
    fst (stage h entries tr) = Done <-> forallb (entry_ok h) entries = true.
Proof.
  induction entries as [|entry rest IH]; intros tr; [now split |].
  cbn [stage forallb]. destruct (entry_ok h entry) eqn:E.
  - destruct (stage_entry_ok h entry tr E) as [content [_ ->]].
    rewrite andb_true_l. apply IH.
  - rewrite andb_false_l. split; [| discriminate].
    destruct (stage_entry h entry tr) as [[|e] tr1] eqn:S; [| discriminate].
    exfalso. destruct entry as [target source].
    unfold entry_ok in E. cbn [fst snd] in E. unfold stage_entry in S.
    destruct (read_text h source) as [content|]; [| discriminate].
    destruct (open_ok h target); [| discriminate].
    destruct (write_ok h target (rewrite_links target content));
      destruct (close_ok h target (rewrite_links target content));
      discriminate.
Qed.

(** The run completes exactly when, for every entry, the source can be read
    and the host opens the destination, accepts the rewritten text and
    closes the file without raising: there is no other way to fail and none
    to succeed in part. *)
Theorem run_Done_iff (ROOT : path) (h : host) :
  fst (run ROOT h) = Done <-> forallb (entry_ok h) (SOURCES ROOT) = true.
Proof. apply stage_Done_iff. Qed.

Lemma run_Done_iff_witness :
  fst (run sample_root sample_host) = Done /\
  fst (run sample_root broken_host) <> Done.
Proof.
  split.
  - apply (proj2 (run_Done_iff sample_root sample_host)). reflexivity.
  - intros H. apply (proj1 (run_Done_iff sample_root broken_host)) in H.
    discriminate H.
Defined.

(** In a run that completes, the text written under each destination is the
    text of its own source, rewritten for that destination: entry by entry,
    in the declared order. *)
Theorem run_done_contents (ROOT : path) (h : host) (tr : trace) :
  run ROOT h = (Done, tr) ->
  map Some (writes tr) =
  map (fun e => option_map (fun c => (fst e, rewrite_links (fst e) c))
                           (read_text h (snd e)))
      (SOURCES ROOT).
Proof. intros H. apply stage_done_writes in H. exact H. Qed.

Lemma run_done_contents_witness :
  map Some (writes (snd (run sample_root sample_host))) =
  map (fun e => option_map (fun c => (fst e, rewrite_links (fst e) c))
                           (read_text sample_host (snd e)))
      (SOURCES sample_root).
Proof.
  apply (run_done_contents sample_root sample_host). reflexivity.
Defined.

Lemma stage_app_ok (h : host) (pre rest : list (text * path)) :
  forallb (entry_ok h) pre = true ->
  forall tr,
    exists tr1,
      stage h (pre ++ rest) tr = stage h rest tr1 /\
      written tr1 = written tr ++ map fst pre.
Proof.
  induction pre as [|entry pre IH]; intros Hok tr.
  - exists tr. simpl. now rewrite app_nil_r.
  - cbn [forallb] in Hok. apply andb_true_iff in Hok. destruct Hok as [He Hp].
    destruct (stage_entry_ok h entry tr He) as [content [_ Hs]].
    destruct (IH Hp (tr ++ block (fst entry, rewrite_links (fst entry) content)))
      as [tr1 [Hst Hw]].
    exists tr1. cbn [app stage]. rewrite Hs. split; [exact Hst |].
    rewrite Hw, written_app. cbn [map]. unfold block at 1. cbn [fst snd].
    unfold written at 2. cbn [writes map fst]. now rewrite <- app_assoc.
Qed.

(** When the source of an entry is read but the host refuses to open or to
    write its destination, and every entry before it completed, the run ends
    with the host's exception (the one from closing the file, with the write
    error as its context, if closing raises after the refused write); the
    destinations written are those declared before that entry. *)
Theorem write_failure_aborts (ROOT : path) (h : host)
        (pre post : list (text * path)) (target : text) (source : path)
        (content : text) :
  SOURCES ROOT = pre ++ (target, source) :: post ->
  forallb (entry_ok h) pre = true ->
  read_text h source = Some content ->
  open_ok h target && write_ok h target (rewrite_links target content)
    = false ->
  fst (run ROOT h) =
    Raised (if open_ok h target then
              if close_ok h target (rewrite_links target content)
              then WriteError target
              else CloseError target true
            else OpenError target) /\
  written (snd (run ROOT h)) = map fst pre.
Proof.
  intros Hsrc Hok Hread Hfail. unfold run. rewrite Hsrc.
  destruct (stage_app_ok h pre ((target, source) :: post) Hok [])
    as [tr1 [-> Hw]].
  change (written [] ++ map fst pre) with (map fst pre) in Hw.
  cbn [stage]. unfold stage_entry. rewrite Hread.
  destruct (open_ok h target); cbn [andb] in Hfail.
  - rewrite Hfail.
    destruct (close_ok h target (rewrite_links target content));
      cbn [fst snd]; (split; [reflexivity |]);
      rewrite written_app, Hw; apply app_nil_r.
  - cbn [fst snd]. now split.
Qed.

Lemma write_failure_aborts_witness :
  (fst (run sample_root write_refusing_host) = Raised (WriteError agents_md) /\
   written (snd (run sample_root write_refusing_host)) = [index_md]) /\
  (fst (run sample_root write_and_close_refusing_host)
     = Raised (CloseError agents_md true) /\
   written (snd (run sample_root write_and_close_refusing_host)) = [index_md]) /\
  (fst (run sample_root open_refusing_host)
     = Raised (OpenError (txt "_templates/TOPIC_TEMPLATE.md")) /\
   written (snd (run sample_root open_refusing_host)) = [index_md; agents_md]).
Proof.
  split; [| split].
  - apply (write_failure_aborts sample_root write_refusing_host
             (firstn 1 (SOURCES sample_root)) (skipn 2 (SOURCES sample_root))
             agents_md (joinpath sample_root [txt "AGENTS.md"]) sample_page);
      reflexivity.
  - apply (write_failure_aborts sample_root write_and_close_refusing_host
             (firstn 1 (SOURCES sample_root)) (skipn 2 (SOURCES sample_root))
             agents_md (joinpath sample_root [txt "AGENTS.md"]) sample_page);
      reflexivity.
  - apply (write_failure_aborts sample_root open_refusing_host
             (firstn 2 (SOURCES sample_root)) (skipn 3 (SOURCES sample_root))
             (txt "_templates/TOPIC_TEMPLATE.md")
             (joinpath sample_root [txt "_templates"; txt "TOPIC_TEMPLATE.md"])
             sample_page);
      reflexivity.
Defined.

(** When an entry is read, opened and written but closing its file raises,
    and every entry before it completed, the run ends with that exception:
    the destination of the entry is the last one written, and nothing
    declared after it is. *)
Theorem close_failure_aborts (ROOT : path) (h : host)
        (pre post : list (text * path)) (target : text) (source : path)
        (content : text) :
  SOURCES ROOT = pre ++ (target, source) :: post ->
  forallb (entry_ok h) pre = true ->
  read_text h source = Some content ->
  open_ok h target = true ->
  write_ok h target (rewrite_links target content) = true ->
  close_ok h target (rewrite_links target content) = false ->
  fst (run ROOT h) = Raised (CloseError target false) /\
  written (snd (run ROOT h)) = map fst pre ++ [target] /\
  (forall t, In t (map fst post) -> ~ In t (written (snd (run ROOT h)))).
Proof.
  intros Hsrc Hok Hread Ho Hw Hc.
  pose proof (SOURCES_keys_NoDup ROOT) as Hnd.
  rewrite Hsrc, map_app in Hnd. cbn [map fst] in Hnd.
  unfold run. rewrite Hsrc.
  destruct (stage_app_ok h pre ((target, source) :: post) Hok [])
    as [tr1 [-> Hwr]].
  change (written [] ++ map fst pre) with (map fst pre) in Hwr.
  cbn [stage]. unfold stage_entry. rewrite Hread, Ho, Hw, Hc. cbn [fst snd].
  assert (Hwritten : written (tr1 ++ [Opened target;
                                      Wrote target (rewrite_links target content);
                                      Closed target])
                     = map fst pre ++ [target])
    by (rewrite written_app, Hwr; reflexivity).
  rewrite Hwritten. split; [reflexivity |]. split; [reflexivity |].
  intros t Ht Hin. apply in_app_or in Hin. destruct Hin as [Hin | [<- | []]].
  - apply (NoDup_app_disjoint _ _ _ t Hnd Hin). now right.
  - apply NoDup_remove_2 in Hnd. apply Hnd. apply in_or_app. now right.
Qed.

Lemma close_failure_aborts_witness :
  fst (run sample_root close_refusing_host) = Raised (CloseError agents_md false) /\
  written (snd (run sample_root close_refusing_host)) = [index_md; agents_md].
Proof.
  destruct (close_failure_aborts sample_root close_refusing_host
              (firstn 1 (SOURCES sample_root)) (skipn 2 (SOURCES sample_root))
              agents_md (joinpath sample_root [txt "AGENTS.md"]) sample_page
              eq_refl eq_refl eq_refl eq_refl eq_refl eq_refl) as [H1 [H2 _]].
  split; [exact H1 | exact H2].
Defined.

Lemma writes_blocks (ws : list (text * text)) :
  writes (flat_map block ws) = ws.
Proof.
  induction ws as [|[t c] ws IH]; [reflexivity |].
  cbn [flat_map block fst snd app writes]. now rewrite IH.
Qed.

Lemma stage_trace_shape (h : host) (entries : list (text * path)) :
  forall tr,
    tr = flat_map block (writes tr) ->
    snd (stage h entries tr) =
    flat_map block (writes (snd (stage h entries tr))) ++
    match fst (stage h entries tr) with
    | Raised (WriteError t) | Raised (CloseError t true) =>
        [Opened t; Closed t]
    | _ => []
    end.
Proof.
  induction entries as [|[target source] rest IH]; intros tr Htr.
  - cbn [stage fst snd]. now rewrite app_nil_r.
  - cbn [stage]. unfold stage_entry.
    destruct (read_text h source) as [content|];
      [| cbn [fst snd]; now rewrite app_nil_r].
    destruct (open_ok h target); [| cbn [fst snd]; now rewrite app_nil_r].
    destruct (write_ok h target (rewrite_links target content));
      destruct (close_ok h target (rewrite_links target content)).
    + apply IH. rewrite writes_app, flat_map_app, <- Htr. reflexivity.
    + cbn [fst snd]. rewrite writes_app, flat_map_app, <- Htr.
      now rewrite app_nil_r.
    + cbn [fst snd]. rewrite writes_app. cbn [writes].
      now rewrite app_nil_r, <- Htr.
    + cbn [fst snd]. rewrite writes_app. cbn [writes].
      now rewrite app_nil_r, <- Htr.
Qed.

(** Whatever the outcome, the trace of a run is a sequence of complete
    iterations (open, one write, close, all of the same destination), followed
    by an open and a close of the failing destination when a write was
    refused (whether or not closing raised after it): no file stays open,
    none is written twice or left half-way through by the script. *)
Theorem run_trace_shape (ROOT : path) (h : host) :
  snd (run ROOT h) =
  flat_map block (writes (snd (run ROOT h))) ++
  match fst (run ROOT h) with
  | Raised (WriteError t) | Raised (CloseError t true) => [Opened t; Closed t]
  | _ => []
  end.
Proof. apply stage_trace_shape. reflexivity. Qed.

Lemma stage_agree (h1 h2 : host) (entries : list (text * path)) :
  Forall (fun e =>
            read_text h1 (snd e) = read_text h2 (snd e) /\
            open_ok h1 (fst e) = open_ok h2 (fst e) /\
            forall c, write_ok h1 (fst e) c = write_ok h2 (fst e) c /\
                      close_ok h1 (fst e) c = close_ok h2 (fst e) c)
         entries ->
  forall tr, stage h1 entries tr = stage h2 entries tr.
Proof.
  induction 1 as [|[target source] rest [Hr [Ho Hw]] _ IH]; intros tr;
    [reflexivity |].
  cbn [fst snd] in Hr, Ho, Hw. cbn [stage]. unfold stage_entry.
  rewrite Hr, Ho. destruct (read_text h2 source) as [content|]; [| reflexivity].
  destruct (Hw (rewrite_links target content)) as [-> ->].
  destruct (open_ok h2 target); [| reflexivity].
  destruct (write_ok h2 target (rewrite_links target content));
    destruct (close_ok h2 target (rewrite_links target content));
    try reflexivity.
  apply IH.
Qed.

(** A run consults its environment at the declared sources and destinations
    only: two environments that agree there (on what is read, and on whether
    opening, writing and closing raise) give the same outcome and the same
    trace, however they differ elsewhere. *)
Theorem run_uses_declared_only (ROOT : path) (h1 h2 : host) :
  Forall (fun e =>
            read_text h1 (snd e) = read_text h2 (snd e) /\
            open_ok h1 (fst e) = open_ok h2 (fst e) /\
            forall c, write_ok h1 (fst e) c = write_ok h2 (fst e) c /\
                      close_ok h1 (fst e) c = close_ok h2 (fst e) c)
         (SOURCES ROOT) ->
  run ROOT h1 = run ROOT h2.
Proof. intros H. now apply stage_agree. Qed.

Lemma run_uses_declared_only_witness :
  read_text sample_host [txt "elsewhere"] <>
    read_text declared_only_host [txt "elsewhere"] /\
  run sample_root sample_host = run sample_root declared_only_host.
Proof.
  split; [discriminate |].
  apply run_uses_declared_only.
  repeat (constructor;
          [ split; [reflexivity
                   | split; [reflexivity | intros c; split; reflexivity]]
          | ]).
  constructor.
Defined.

Lemma map_Some_inj (A : Type) (l1 l2 : list A) :
  map Some l1 = map Some l2 -> l1 = l2.
Proof.
  revert l2. induction l1 as [|x l1 IH]; intros [|y l2] H;
    try discriminate; [reflexivity |].
  simpl in H. injection H as -> H. f_equal. now apply IH.
Qed.

Lemma forallb_Permutation (A : Type) (f : A -> bool) (l1 l2 : list A) :
  Permutation l1 l2 -> forallb f l1 = true -> forallb f l2 = true.
Proof.
  intros Hp. rewrite !forallb_forall. intros H x Hin. apply H.
  apply (Permutation_in x (Permutation_sym Hp) Hin).
Qed.

(** The iterations do not depend on one another: if the run completes, then
    staging the same entries in any other order completes as well and writes
    the same destinations with the same texts. *)
Theorem run_order_independent (ROOT : path) (h : host)
        (entries : list (text * path)) (tr : trace) :
  Permutation (SOURCES ROOT) entries ->
  run ROOT h = (Done, tr) ->
  exists tr',
    stage h entries [] = (Done, tr') /\
    Permutation (writes tr) (writes tr').
Proof.
  intros Hp Hrun.
  assert (Hok : forallb (entry_ok h) (SOURCES ROOT) = true).
  { apply run_Done_iff. now rewrite Hrun. }
  apply (forallb_Permutation _ _ _ _ Hp) in Hok.
  apply (stage_Done_iff h entries []) in Hok.
  destruct (stage h entries []) as [o tr'] eqn:E. cbn [fst] in Hok. subst o.
  exists tr'. split; [reflexivity |].
  apply run_done_contents in Hrun. apply stage_done_writes in E.
  cbn [writes map app] in E.
  set (f := fun e : text * path =>
              option_map (fun c => (fst e, rewrite_links (fst e) c))
                         (read_text h (snd e))) in *.
  assert (Hm : Permutation (map Some (writes tr)) (map Some (writes tr'))).
  { rewrite Hrun, E. now apply Permutation_map. }
  apply Permutation_map_inv in Hm. destruct Hm as [l [Hl Hperm]].
  apply map_Some_inj in Hl. subst l. now apply Permutation_sym.
Qed.

Lemma run_order_independent_witness :
  exists tr',
    stage sample_host (rev (SOURCES sample_root)) [] = (Done, tr') /\
    Permutation (writes (snd (run sample_root sample_host))) (writes tr').
Proof.
  apply (run_order_independent sample_root sample_host).
  - apply Permutation_rev.
  - reflexivity.
Defined.

End GenDocsMore.
